(** * ARIES recovery simulator (src/aries.js): a shallow embedding

    The JavaScript objects used as maps (transaction table, dirty page
    table, buffer pool, disk) are finite maps keyed by strings; the log and
    the history of states are lists that grow at the end.  [deep_copy]
    (a JSON round trip) is the identity on the immutable values used here:
    the fields it drops, those holding [undefined], are the [None] fields.

    Numbers are the integers the simulator computes with (log positions and
    the page LSN -1), embedded as [Z].

    A failed [console.assert], like the TypeError raised when a property of
    [undefined] is read and the SyntaxError raised by [deep_copy(undefined)],
    ends the run: all three are results [Throw _].

    The [explanation] strings of a state are narration only (no branch of
    the source reads them) and are left out of [State].

    Transaction and page identifiers are taken to differ from the property
    names every JavaScript object inherits ([constructor], [toString], ...),
    for which the source's [in] tests hold on an empty table. *)

From Stdlib Require Import ZArith String DecimalString DecimalZ List Lia.
From Stdlib Require Import OrderedTypeEx.
From stdpp Require Import base option list gmap strings sorting.

Local Open Scope string_scope.
Local Open Scope list_scope.
Local Open Scope Z_scope.

(** ** Results of fallible and looping code *)

Inductive error : Type :=
| AssertionError      (* console.assert on a false condition *)
| TypeError           (* a property of undefined is read or written *)
| SyntaxError.        (* JSON.parse(undefined), in deep_copy(undefined) *)

Inductive result (A : Type) : Type :=
| Ok (a : A)
| Throw (e : error)
| Timeout.            (* the fuel of a while loop ran out *)

Arguments Ok {A} a.
Arguments Throw {A} e.
Arguments Timeout {A}.

#[global] Instance result_ret : MRet result := fun A a => Ok a.
#[global] Instance result_bind : MBind result := fun A B f r =>
  match r with
  | Ok a => f a
  | Throw e => Throw e
  | Timeout => Timeout
  end.

#[global] Instance result_fmap : FMap result := fun A B f r =>
  match r with
  | Ok a => Ok (f a)
  | Throw e => Throw e
  | Timeout => Timeout
  end.

Definition console_assert (c : bool) : result unit :=
  if c then Ok tt else Throw AssertionError.

(** [o.f] where [o] may be undefined. *)
Definition defined {A} (o : option A) : result A :=
  match o with
  | Some a => Ok a
  | None => Throw TypeError
  end.

(** [aries.deep_copy(x)] where [x] may be undefined. *)
Definition deep_copy {A} (x : option A) : result A :=
  match x with
  | Some a => Ok a
  | None => Throw SyntaxError
  end.

(** A JavaScript value, for the fields that receive values of more than one
    type. *)
Inductive jsval : Type :=
| JUndefined
| JNumber (n : Z)
| JString (s : string).

Definition js_of_number (o : option Z) : jsval :=
  match o with
  | Some n => JNumber n
  | None => JUndefined
  end.

(** ** Types *)

Module Op.

Inductive Operation : Type :=
| Write (txn_id page_id value : string)
| Commit (txn_id : string)
| Flush (page_id : string)
| Checkpoint.

End Op.

Inductive TxnStatus : Type := IN_PROGRESS | COMMITTED | ABORTED.

#[global] Instance TxnStatus_eq_dec : EqDecision TxnStatus.
Proof. solve_decision. Defined.

Module TxnTableEntry.
Record t : Type := mk { txn_status : option TxnStatus; last_lsn : option Z }.
End TxnTableEntry.

Module DirtyPageTableEntry.
Record t : Type := mk { rec_lsn : Z }.
End DirtyPageTableEntry.

Module Page.
Record t : Type := mk { page_lsn : Z; value : string }.
End Page.

Abbreviation TxnTable := (gmap string TxnTableEntry.t).
Abbreviation DirtyPageTable := (gmap string DirtyPageTableEntry.t).
Abbreviation BufferPool := (gmap string Page.t).
Abbreviation Disk := (gmap string Page.t).

Module Log.

(** The constructors keep the parameter order of the source's. *)
Inductive Entry : Type :=
| Update (lsn : Z) (txn_id page_id before after : string) (prev_lsn : option Z)
| Commit (lsn : Z) (txn_id : string) (prev_lsn : option Z)
| End_ (lsn : Z) (txn_id : string) (prev_lsn : option Z)
| CLR (lsn : Z) (txn_id page_id : string) (after undo_next_lsn : jsval)
      (prev_lsn : option Z)
| Checkpoint (lsn : Z) (dirty_page_table : DirtyPageTable)
             (txn_table : TxnTable).

Definition lsn (e : Entry) : Z :=
  match e with
  | Update l _ _ _ _ _ | Commit l _ _ | End_ l _ _ | CLR l _ _ _ _ _
  | Checkpoint l _ _ => l
  end.

Definition is_checkpoint (e : Entry) : bool :=
  match e with Checkpoint _ _ _ => true | _ => false end.

Definition is_update (e : Entry) : bool :=
  match e with Update _ _ _ _ _ _ => true | _ => false end.

Definition is_clr (e : Entry) : bool :=
  match e with CLR _ _ _ _ _ _ => true | _ => false end.

End Log.

Inductive Phase : Type := NORMAL | ANALYSIS | REDO | UNDO | CRASHED.

Record State : Type := mkState {
  phase : Phase;
  ops : list Op.Operation;
  num_ops_processed : Z;
  log : list Log.Entry;
  num_flushed : Z;
  log_position : option Z;
  txn_table : TxnTable;
  dirty_page_table : DirtyPageTable;
  buffer_pool : BufferPool;
  disk : Disk;
}.

(** [new aries.State(ops)] *)
Definition new_State (ops : list Op.Operation) : State :=
  mkState NORMAL ops 0 [] 0 None ∅ ∅ ∅ ∅.

(** Assignments to one field of a state. *)
Definition set_phase (p : Phase) (s : State) : State :=
  mkState p (ops s) (num_ops_processed s) (log s) (num_flushed s)
          (log_position s) (txn_table s) (dirty_page_table s)
          (buffer_pool s) (disk s).
Definition set_num_ops_processed (n : Z) (s : State) : State :=
  mkState (phase s) (ops s) n (log s) (num_flushed s)
          (log_position s) (txn_table s) (dirty_page_table s)
          (buffer_pool s) (disk s).
Definition set_log (l : list Log.Entry) (s : State) : State :=
  mkState (phase s) (ops s) (num_ops_processed s) l (num_flushed s)
          (log_position s) (txn_table s) (dirty_page_table s)
          (buffer_pool s) (disk s).
Definition set_num_flushed (n : Z) (s : State) : State :=
  mkState (phase s) (ops s) (num_ops_processed s) (log s) n
          (log_position s) (txn_table s) (dirty_page_table s)
          (buffer_pool s) (disk s).
Definition set_log_position (p : option Z) (s : State) : State :=
  mkState (phase s) (ops s) (num_ops_processed s) (log s) (num_flushed s)
          p (txn_table s) (dirty_page_table s)
          (buffer_pool s) (disk s).
Definition set_txn_table (t : TxnTable) (s : State) : State :=
  mkState (phase s) (ops s) (num_ops_processed s) (log s) (num_flushed s)
          (log_position s) t (dirty_page_table s)
          (buffer_pool s) (disk s).
Definition set_dirty_page_table (d : DirtyPageTable) (s : State) : State :=
  mkState (phase s) (ops s) (num_ops_processed s) (log s) (num_flushed s)
          (log_position s) (txn_table s) d
          (buffer_pool s) (disk s).
Definition set_buffer_pool (b : BufferPool) (s : State) : State :=
  mkState (phase s) (ops s) (num_ops_processed s) (log s) (num_flushed s)
          (log_position s) (txn_table s) (dirty_page_table s)
          b (disk s).
Definition set_disk (d : Disk) (s : State) : State :=
  mkState (phase s) (ops s) (num_ops_processed s) (log s) (num_flushed s)
          (log_position s) (txn_table s) (dirty_page_table s)
          (buffer_pool s) d.

(** [state.log.push(e)] and [state.log.length] *)
Definition log_push (e : Log.Entry) (s : State) : State :=
  set_log (log s ++ [e]) s.
Definition log_length (s : State) : Z := Z.of_nat (length (log s)).

(** [a[i]] for a number [i]: undefined outside [0 .. a.length - 1]. *)
Definition js_index {A} (a : list A) (i : Z) : option A :=
  if decide (0 <= i) then a !! Z.to_nat i else None.

(** [a.slice(0, n)]: a negative [n] counts from the end of the array. *)
Definition js_slice0 {A} (a : list A) (n : Z) : list A :=
  if decide (0 <= n) then take (Z.to_nat n) a
  else take (Z.to_nat (Z.of_nat (length a) + n)) a.

(** ** Helper functions *)

Definition is_object_empty {A} (x : gmap string A) : bool :=
  bool_decide (size x = 0%nat).

Fixpoint pages_accessed (ops : list Op.Operation) : list string :=
  match ops with
  | [] => []
  | Op.Write _ page_id _ :: ops' => page_id :: pages_accessed ops'
  | Op.Flush page_id :: ops' => page_id :: pages_accessed ops'
  | _ :: ops' => pages_accessed ops'
  end.

(** The loop of [latest_checkpoint_lsn], from index [i] with [lsn] so far. *)
Fixpoint latest_checkpoint_from (l : list Log.Entry) (i lsn : Z) : Z :=
  match l with
  | [] => lsn
  | e :: l' =>
      latest_checkpoint_from l' (i + 1) (if Log.is_checkpoint e then i else lsn)
  end.

Definition latest_checkpoint_lsn (state : State) : Z :=
  latest_checkpoint_from (log state) 0 0.

(** The minimum of the recLSNs, [None] (undefined) for an empty table.  The
    minimum does not depend on the order in which the keys are visited. *)
Definition min_rec_lsn (state : State) : option Z :=
  map_fold (fun _ (e : DirtyPageTableEntry.t) (min : option Z) =>
              match min with
              | None => Some (DirtyPageTableEntry.rec_lsn e)
              | Some m => Some (Z.min m (DirtyPageTableEntry.rec_lsn e))
              end)
           None (dirty_page_table state).

Definition pin (state : State) (page_id : string) : result State :=
  _ ← console_assert (bool_decide (is_Some (disk state !! page_id)));
  match buffer_pool state !! page_id with
  | Some _ => Ok state
  | None =>
      p ← deep_copy (disk state !! page_id);
      Ok (set_buffer_pool (<[page_id := p]> (buffer_pool state)) state)
  end.

Definition flush (state : State) (page_id : string) : result State :=
  _ ← console_assert (bool_decide (is_Some (disk state !! page_id)));
  match buffer_pool state !! page_id with
  | Some p =>
      Ok (set_buffer_pool (delete page_id (buffer_pool state))
            (set_disk (<[page_id := p]> (disk state)) state))
  | None => Ok state
  end.

Definition dirty (state : State) (page_id : string) (rec_lsn : Z)
  : result State :=
  _ ← console_assert (bool_decide (is_Some (disk state !! page_id)));
  match dirty_page_table state !! page_id with
  | None =>
      Ok (set_dirty_page_table
            (<[page_id := DirtyPageTableEntry.mk rec_lsn]>
               (dirty_page_table state)) state)
  | Some _ => Ok state
  end.

Definition begin_txn (state : State) (txn_id : string) : State :=
  match txn_table state !! txn_id with
  | None =>
      set_txn_table (<[txn_id := TxnTableEntry.mk None None]> (txn_table state))
                    state
  | Some _ => state
  end.

Definition flush_log (state : State) (lsn : Z) : State :=
  set_num_flushed (Z.max (num_flushed state) (lsn + 1)) state.

Definition rec_lsn (state : State) (page_id : string) : option Z :=
  DirtyPageTableEntry.rec_lsn <$> dirty_page_table state !! page_id.

Definition last_lsn (state : State) (txn_id : string) : option Z :=
  txn_table state !! txn_id ≫= TxnTableEntry.last_lsn.

Definition page_lsn (state : State) (page_id : string) : option Z :=
  Page.page_lsn <$> buffer_pool state !! page_id.

(** [state.txn_table[txn_id].txn_status = st] and [....last_lsn = l]: a
    TypeError when the transaction has no entry. *)
Definition set_txn_status (state : State) (txn_id : string) (st : TxnStatus)
  : result State :=
  e ← defined (txn_table state !! txn_id);
  Ok (set_txn_table
        (<[txn_id := TxnTableEntry.mk (Some st) (TxnTableEntry.last_lsn e)]>
           (txn_table state)) state).

Definition set_last_lsn (state : State) (txn_id : string) (l : Z)
  : result State :=
  e ← defined (txn_table state !! txn_id);
  Ok (set_txn_table
        (<[txn_id := TxnTableEntry.mk (TxnTableEntry.txn_status e) (Some l)]>
           (txn_table state)) state).

(** [state.buffer_pool[page_id].page_lsn = l; ....value = v] *)
Definition set_page (state : State) (page_id : string) (l : Z) (v : string)
  : result State :=
  _ ← defined (buffer_pool state !! page_id);
  Ok (set_buffer_pool (<[page_id := Page.mk l v]> (buffer_pool state)) state).

(** ** Init *)

Definition init (state : State) (ops : list Op.Operation) : State :=
  fold_left (fun st page_id =>
               set_disk (<[page_id := Page.mk (-1) "⊥"]> (disk st)) st)
            (pages_accessed ops) state.

(** ** Forward processing *)

Definition process_write (state : State) (txn_id page_id value : string)
  : result State :=
  let lsn := log_length state in
  state ← pin state page_id;
  p ← defined (buffer_pool state !! page_id);
  let before := Page.value p in
  state ← set_page state page_id lsn value;
  state ← dirty state page_id lsn;
  let prev_lsn := last_lsn state txn_id in
  let state := begin_txn state txn_id in
  state ← set_txn_status state txn_id IN_PROGRESS;
  state ← set_last_lsn state txn_id lsn;
  Ok (log_push (Log.Update lsn txn_id page_id before value prev_lsn) state).

Definition process_commit (state : State) (txn_id : string) : result State :=
  let commit_lsn := log_length state in
  let end_lsn := commit_lsn + 1 in
  let prev_lsn := last_lsn state txn_id in
  let state := log_push (Log.Commit commit_lsn txn_id prev_lsn) state in
  let state := log_push (Log.End_ end_lsn txn_id (Some commit_lsn)) state in
  let state := flush_log state end_lsn in
  Ok (set_txn_table (delete txn_id (txn_table state)) state).

Definition process_checkpoint (state : State) : result State :=
  let lsn := log_length state in
  Ok (log_push (Log.Checkpoint lsn (dirty_page_table state) (txn_table state))
               state).

Definition process_flush (state : State) (page_id : string) : result State :=
  match page_lsn state page_id with
  | None =>
      _ ← console_assert
            (bool_decide (dirty_page_table state !! page_id = None));
      Ok state
  | Some page_lsn =>
      let state := flush_log state page_lsn in
      state ← flush state page_id;
      Ok (set_dirty_page_table (delete page_id (dirty_page_table state)) state)
  end.

Definition process_op (state : State) (op : Op.Operation) : result State :=
  match op with
  | Op.Write txn_id page_id value => process_write state txn_id page_id value
  | Op.Commit txn_id => process_commit state txn_id
  | Op.Checkpoint => process_checkpoint state
  | Op.Flush page_id => process_flush state page_id
  end.

(** The loop of [forward_process]: [state] is the working copy of the last
    state of [states]. *)
Fixpoint forward_loop (ops : list Op.Operation) (state : State)
  (states : list State) : result (list State) :=
  match ops with
  | [] => Ok states
  | op :: ops' =>
      state ← process_op state op;
      let state := set_num_ops_processed (num_ops_processed state + 1) state in
      forward_loop ops' state (states ++ [state])
  end.

Definition forward_process (states : list State) (ops : list Op.Operation)
  : result (list State) :=
  state ← deep_copy (last states);
  forward_loop ops state states.

(** ** Crash *)

Definition crash (state : State) : State :=
  let state := set_phase CRASHED state in
  let state := set_log (js_slice0 (log state) (num_flushed state)) state in
  let state := set_dirty_page_table ∅ state in
  let state := set_txn_table ∅ state in
  set_buffer_pool ∅ state.

(** ** Analysis *)

Definition analysis_update (state : State) (lsn : Z) (txn_id page_id : string)
  : result State :=
  state ← dirty state page_id lsn;
  let state := begin_txn state txn_id in
  set_last_lsn state txn_id lsn.

Definition analysis_commit (state : State) (lsn : Z) (txn_id : string)
  : result State :=
  let state := begin_txn state txn_id in
  state ← set_txn_status state txn_id COMMITTED;
  set_last_lsn state txn_id lsn.

Definition analysis_end (state : State) (txn_id : string) : result State :=
  Ok (set_txn_table (delete txn_id (txn_table state)) state).

Definition analysis_clr (state : State) : result State :=
  _ ← console_assert false;
  Ok state.

Definition analysis_checkpoint (state : State)
  (dpt : DirtyPageTable) (txns : TxnTable) : result State :=
  let state_cleared :=
    is_object_empty (dirty_page_table state) &&
    is_object_empty (txn_table state) &&
    is_object_empty (buffer_pool state) in
  _ ← console_assert state_cleared;
  Ok (set_txn_table txns (set_dirty_page_table dpt state)).

Definition analysis_entry (state : State) (log_entry : Log.Entry)
  : result State :=
  match log_entry with
  | Log.Update lsn txn_id page_id _ _ _ =>
      analysis_update state lsn txn_id page_id
  | Log.Commit lsn txn_id _ => analysis_commit state lsn txn_id
  | Log.End_ _ txn_id _ => analysis_end state txn_id
  | Log.CLR _ _ _ _ _ _ => analysis_clr state
  | Log.Checkpoint _ dpt txns => analysis_checkpoint state dpt txns
  end.

(** [state.log_position += 1] *)
Definition advance (state : State) : State :=
  set_log_position ((fun p => p + 1) <$> log_position state) state.

(** The scan of [analysis] over the entries from the start LSN on; it
    returns the history and the working state. *)
Fixpoint analysis_loop (entries : list Log.Entry) (state : State)
  (states : list State) : result (list State * State) :=
  match entries with
  | [] => Ok (states, state)
  | log_entry :: entries' =>
      state ← analysis_entry state log_entry;
      let state := advance state in
      analysis_loop entries' state (states ++ [state])
  end.

Definition abort_in_progress (e : TxnTableEntry.t) : TxnTableEntry.t :=
  if decide (TxnTableEntry.txn_status e = Some IN_PROGRESS)
  then TxnTableEntry.mk (Some ABORTED) (TxnTableEntry.last_lsn e)
  else e.

Definition analysis (states : list State) : result (list State) :=
  state ← deep_copy (last states);
  let start_lsn := latest_checkpoint_lsn state in
  let state := set_phase ANALYSIS state in
  let state := set_log_position (Some start_lsn) state in
  '(states, state) ←
    analysis_loop (drop (Z.to_nat start_lsn) (log state)) state states;
  let state := set_txn_table (abort_in_progress <$> txn_table state) state in
  Ok (states ++ [state]).

(** ** Redo *)

Definition redo_update (state : State) (lsn : Z) (page_id after : string)
  : result State :=
  match dirty_page_table state !! page_id with
  | None => Ok state                                       (* condition 1 *)
  | Some d =>
      let dpt_rec_lsn := DirtyPageTableEntry.rec_lsn d in
      if decide (dpt_rec_lsn > lsn) then Ok state          (* condition 2 *)
      else
        p ← defined (disk state !! page_id);
        let disk_page_lsn := Page.page_lsn p in
        if decide (disk_page_lsn >= lsn) then Ok state     (* condition 3 *)
        else
          state ← pin state page_id;
          set_page state page_id lsn after
  end.

Definition redo_commit (state : State) : result State := Ok state.
Definition redo_end (state : State) : result State := Ok state.
Definition redo_clr (state : State) : result State :=
  _ ← console_assert false;
  Ok state.
Definition redo_checkpoint (state : State) : result State := Ok state.

Definition redo_entry (state : State) (log_entry : Log.Entry)
  : result State :=
  match log_entry with
  | Log.Update lsn _ page_id _ after _ => redo_update state lsn page_id after
  | Log.Commit _ _ _ => redo_commit state
  | Log.End_ _ _ _ => redo_end state
  | Log.CLR _ _ _ _ _ _ => redo_clr state
  | Log.Checkpoint _ _ _ => redo_checkpoint state
  end.

Fixpoint redo_loop (entries : list Log.Entry) (state : State)
  (states : list State) : result (list State * State) :=
  match entries with
  | [] => Ok (states, state)
  | log_entry :: entries' =>
      state ← redo_entry state log_entry;
      let state := advance state in
      redo_loop entries' state (states ++ [state])
  end.

(** The working copy of [redo] before its scan. *)
Definition redo_begin (state : State) : State :=
  set_log_position (min_rec_lsn state) (set_phase REDO state).

(** [redo] with its working copy: the history is what the caller sees, the
    working copy is local to the function. *)
Definition redo_run (states : list State) : result (list State * State) :=
  state ← deep_copy (last states);
  let start_lsn := min_rec_lsn state in
  let state := redo_begin state in
  match start_lsn with
  | None => Ok (states, state)
  | Some start_lsn =>
      (* [state.log[i]] is undefined for a negative [i] *)
      if decide (start_lsn < 0) then Throw TypeError
      else redo_loop (drop (Z.to_nat start_lsn) (log state)) state states
  end.

Definition redo (states : list State) : result (list State) :=
  fst <$> redo_run states.

(** ** Undo *)

(** [String(n)] for an integer [n]. *)
Definition js_to_string (n : Z) : string :=
  NilZero.string_of_int (Z.to_int n).

(** The order of [losers.sort()], called without a comparison function:
    undefined elements go last, the others are compared through their
    string conversions, code unit by code unit. *)
Definition js_sort_le (x y : option Z) : bool :=
  match x, y with
  | _, None => true
  | None, Some _ => false
  | Some a, Some b => String.leb (js_to_string a) (js_to_string b)
  end.

Fixpoint js_sort_insert (x : option Z) (l : list (option Z))
  : list (option Z) :=
  match l with
  | [] => [x]
  | y :: l' => if js_sort_le x y then x :: l else y :: js_sort_insert x l'
  end.

(** A stable sort: an element goes in front of the later elements it is
    equal to. *)
Definition js_sort (l : list (option Z)) : list (option Z) :=
  foldr js_sort_insert [] l.

(** One iteration of the while loop of [undo], on a non-empty [losers]. *)
Definition undo_step (state : State) (losers : list (option Z))
  : result (State * list (option Z)) :=
  let losers := js_sort losers in
  let loser := mjoin (last losers) in                      (* losers.pop() *)
  let losers := removelast losers in
  loser_entry ← defined (loser ≫= js_index (log state));
  _ ← console_assert (Log.is_update loser_entry);
  match loser_entry with
  | Log.Update lsn txn_id page_id before _ loser_prev_lsn =>
      (* Append a CLR entry. *)
      let clr_lsn := log_length state in
      let undo_next_lsn := loser_prev_lsn in
      let after := before in
      let prev_lsn := last_lsn state txn_id in
      let state :=
        log_push (Log.CLR clr_lsn txn_id page_id
                          (js_of_number undo_next_lsn) (JString after)
                          prev_lsn) state in
      (* Undo the log entry. *)
      state ← pin state page_id;
      state ← set_page state page_id clr_lsn after;
      (* Update the transaction table. *)
      state ← set_last_lsn state txn_id clr_lsn;
      let '(state, losers) :=
        match undo_next_lsn with
        | Some n => (state, losers ++ [Some n])
        | None =>
            let state :=
              log_push (Log.End_ (log_length state) txn_id (Some clr_lsn))
                       state in
            (set_txn_table (delete txn_id (txn_table state)) state, losers)
        end in
      Ok (set_log_position (Some lsn) state, losers)
  | _ => Throw AssertionError
  end.

Fixpoint undo_loop (fuel : nat) (state : State) (losers : list (option Z))
  (states : list State) : result (list State * State) :=
  match losers with
  | [] => Ok (states, state)
  | _ :: _ =>
      match fuel with
      | O => Timeout
      | S fuel' =>
          '(state, losers) ← undo_step state losers;
          undo_loop fuel' state losers (states ++ [state])
      end
  end.

(** The loser LSNs [undo] starts from.  The source collects them in the
    key order of the transaction table; every iteration sorts the array
    before it reads it, so that order has no effect. *)
Definition loser_lsns (state : State) : list (option Z) :=
  (λ kv, TxnTableEntry.last_lsn kv.2) <$> map_to_list (txn_table state).

Definition undo (fuel : nat) (states : list State) : result (list State) :=
  state ← deep_copy (last states);
  let state := set_phase UNDO state in
  let losers := loser_lsns state in
  '(states, state) ← undo_loop fuel state losers states;
  Ok (states ++ [state]).

(** ** Main *)

Definition simulate (fuel : nat) (ops : list Op.Operation)
  : result (list State) :=
  let initial_state := init (new_State ops) ops in
  let states := [initial_state] in
  states ← forward_process states ops;
  crash_state ← deep_copy (last states);
  let states := states ++ [crash crash_state] in
  states ← analysis states;
  states ← redo states;
  undo fuel states.

(** * Properties *)

(** ** The result monad *)

(** The history a run returned. *)
Definition history_of (r : result (list State)) : list State :=
  match r with
  | Ok states => states
  | _ => []
  end.

Lemma bind_Ok {A B} (r : result A) (f : A → result B) (b : B) :
  r ≫= f = Ok b → ∃ a, r = Ok a ∧ f a = Ok b.
Proof. destruct r as [a| |]; [eauto | discriminate..]. Qed.

Lemma console_assert_Ok (c : bool) (u : unit) :
  console_assert c = Ok u → c = true.
Proof. destruct c; [done | discriminate]. Qed.

(** Inverts a hypothesis [c ≫= k = Ok _], naming the intermediate value. *)
Tactic Notation "inv_bind" hyp(H) :=
  let x := fresh "x" in
  let Hx := fresh "H" x in
  apply bind_Ok in H; destruct H as (x & Hx & H).

Tactic Notation "inv_bind" hyp(H) "as" ident(x) ident(Hx) :=
  apply bind_Ok in H; destruct H as (x & Hx & H).

(** Exposes the fields of a state built by assignments. *)
Ltac unfold_state :=
  unfold flush_log, log_push, log_length, begin_txn,
    set_phase, set_num_ops_processed, set_log, set_num_flushed,
    set_log_position, set_txn_table, set_dirty_page_table, set_buffer_pool,
    set_disk in *;
  simpl in *.

(** ** Forward processing *)

Section forward.
Variable state : State.

Lemma flush_Ok (page_id : string) (p : Page.t) :
  buffer_pool state !! page_id = Some p →
  is_Some (disk state !! page_id) →
  flush state page_id =
    Ok (set_buffer_pool (delete page_id (buffer_pool state))
          (set_disk (<[page_id := p]> (disk state)) state)).
Proof.
  intros Hbp Hdisk. unfold flush.
  rewrite (bool_decide_eq_true_2 _ Hdisk). simpl. by rewrite Hbp.
Qed.

Lemma flush_inv (page_id : string) (state' : State) :
  flush state page_id = Ok state' →
  num_flushed state' = num_flushed state ∧
  dirty_page_table state' = dirty_page_table state ∧
  is_Some (disk state !! page_id).
Proof.
  unfold flush. intros H. inv_bind H.
  apply console_assert_Ok, bool_decide_eq_true_1 in Hx.
  destruct (buffer_pool state !! page_id); by simplify_eq.
Qed.

End forward.

(** C4. WAL ordering: when Flush(P) is processed with P in the buffer pool,
    the durable count after the operation is at least P's buffer page LSN
    plus one; the page is copied to disk from a state whose log is already
    forced that far; the operation succeeds whenever P is on disk. *)
Theorem process_flush_wal (state : State) (page_id : string) (p : Page.t) :
  buffer_pool state !! page_id = Some p →
  (∀ state', process_op state (Op.Flush page_id) = Ok state' →
     num_flushed state' = Z.max (num_flushed state) (Page.page_lsn p + 1) ∧
     num_flushed state' >= Page.page_lsn p + 1 ∧
     disk state' !! page_id = Some p ∧
     buffer_pool state' !! page_id = None ∧
     dirty_page_table state' !! page_id = None ∧
     ∃ copied,
       flush (flush_log state (Page.page_lsn p)) page_id = Ok copied ∧
       state' = set_dirty_page_table
                  (delete page_id (dirty_page_table copied)) copied) ∧
  (is_Some (disk state !! page_id) →
     ∃ state', process_op state (Op.Flush page_id) = Ok state').
Proof.
  intros Hbp. split.
  - intros state' H. simpl in H. unfold process_flush, page_lsn in H.
    rewrite Hbp in H. simpl in H. inv_bind H. injection H as <-.
    pose proof (flush_inv _ _ _ Hx) as (Hnf & Hdpt & Hdisk).
    pose proof Hx as Hcopy.
    rewrite (flush_Ok _ page_id p) in Hx by done. injection Hx as <-.
    simpl. repeat split; [lia | by rewrite lookup_insert_eq
                         | by rewrite lookup_delete_eq
                         | by rewrite lookup_delete_eq |].
    eexists. split; [exact Hcopy | reflexivity].
  - intros Hdisk. simpl. unfold process_flush, page_lsn.
    rewrite Hbp. simpl.
    rewrite (flush_Ok _ page_id p) by done. simpl. eauto.
Qed.

(** A state with page A dirty in the buffer pool at page LSN 4. *)
Definition flush_example : State :=
  mkState NORMAL [] 5 [] 2 None ∅ {["A" := DirtyPageTableEntry.mk 3]}
          {["A" := Page.mk 4 "v"]} {["A" := Page.mk (-1) "⊥"]}.

Lemma process_flush_wal_witness :
  (∀ state', process_op flush_example (Op.Flush "A") = Ok state' →
     num_flushed state' = Z.max 2 (4 + 1) ∧
     num_flushed state' >= 4 + 1 ∧
     disk state' !! "A" = Some (Page.mk 4 "v") ∧
     buffer_pool state' !! "A" = None ∧
     dirty_page_table state' !! "A" = None ∧
     ∃ copied,
       flush (flush_log flush_example 4) "A" = Ok copied ∧
       state' = set_dirty_page_table
                  (delete "A" (dirty_page_table copied)) copied) ∧
  (is_Some (disk flush_example !! "A") →
     ∃ state', process_op flush_example (Op.Flush "A") = Ok state').
Proof.
  apply (process_flush_wal flush_example "A" (Page.mk 4 "v")).
  reflexivity.
Defined.


(** C10. Commit of a transaction that has no entry in the transaction table:
    a Commit entry without prev_lsn and an End entry are appended, the
    durable count covers both, and the transaction table is unchanged. *)
Theorem process_commit_absent (state : State) (txn_id : string) :
  txn_table state !! txn_id = None →
  let commit_lsn := Z.of_nat (length (log state)) in
  ∃ state',
    process_op state (Op.Commit txn_id) = Ok state' ∧
    log state' = log state ++
                   [Log.Commit commit_lsn txn_id None;
                    Log.End_ (commit_lsn + 1) txn_id (Some commit_lsn)] ∧
    num_flushed state' >= Z.of_nat (length (log state')) ∧
    txn_table state' = txn_table state ∧
    txn_table state' !! txn_id = None.
Proof.
  intros Habsent commit_lsn. eexists. split; [reflexivity |].
  simpl. unfold process_commit, last_lsn. unfold_state. fold commit_lsn.
  rewrite Habsent. simpl.
  rewrite !length_app. simpl. rewrite <- app_assoc. simpl.
  rewrite delete_id by done.
  repeat split; [lia | done].
Qed.

Lemma process_commit_absent_witness :
  ∃ state',
    process_op flush_example (Op.Commit "9") = Ok state' ∧
    log state' = [Log.Commit 0 "9" None; Log.End_ 1 "9" (Some 0)] ∧
    num_flushed state' >= Z.of_nat (length (log state')) ∧
    txn_table state' = txn_table flush_example ∧
    txn_table state' !! "9" = None.
Proof.
  apply (process_commit_absent flush_example "9"). reflexivity.
Defined.

(** ** Crash *)

Lemma js_index_take {A} (a : list A) (n i : Z) :
  0 <= n →
  js_index (take (Z.to_nat n) a) i = if decide (i < n) then js_index a i else None.
Proof.
  intros Hn. unfold js_index. destruct (decide (0 <= i)) as [Hi|Hi].
  - destruct (decide (i < n)).
    + apply lookup_take_lt. lia.
    + apply lookup_take_ge. lia.
  - by destruct (decide (i < n)).
Qed.

(** C7. A crash keeps exactly the durable prefix of the log (the entries
    below the durable count, unchanged and in order; nothing at or above
    it), empties the transaction table, the dirty page table and the buffer
    pool, sets the phase to Crashed, and leaves the disk and the durable
    count as they were. *)
Theorem crash_keeps_durable_state (state : State) :
  0 <= num_flushed state →
  log (crash state) = take (Z.to_nat (num_flushed state)) (log state) ∧
  (∀ lsn, lsn < num_flushed state →
          js_index (log (crash state)) lsn = js_index (log state) lsn) ∧
  (∀ lsn, num_flushed state <= lsn →
          js_index (log (crash state)) lsn = None) ∧
  txn_table (crash state) = ∅ ∧
  dirty_page_table (crash state) = ∅ ∧
  buffer_pool (crash state) = ∅ ∧
  phase (crash state) = CRASHED ∧
  disk (crash state) = disk state ∧
  num_flushed (crash state) = num_flushed state.
Proof.
  intros Hnf.
  assert (Hlog : log (crash state)
                 = take (Z.to_nat (num_flushed state)) (log state)).
  { unfold crash. unfold_state. unfold js_slice0. by rewrite decide_True. }
  split; [exact Hlog |]. rewrite Hlog.
  split; [| split].
  - intros lsn Hlt. rewrite js_index_take by done. by rewrite decide_True.
  - intros lsn Hge. rewrite js_index_take by done.
    by rewrite decide_False by lia.
  - by unfold crash.
Qed.

(** Three log entries of which two are durable, with a transaction and a
    dirty page in memory. *)
Definition crash_example : State :=
  mkState NORMAL [] 2
          [Log.Update 0 "1" "A" "⊥" "a" None;
           Log.Update 1 "2" "B" "⊥" "b" None;
           Log.Update 2 "1" "B" "b" "c" (Some 0)]
          2 None
          {["1" := TxnTableEntry.mk (Some IN_PROGRESS) (Some 2);
            "2" := TxnTableEntry.mk (Some IN_PROGRESS) (Some 1)]}
          {["B" := DirtyPageTableEntry.mk 1]}
          {["B" := Page.mk 2 "c"]}
          {["A" := Page.mk 0 "a"; "B" := Page.mk (-1) "⊥"]}.

Lemma crash_keeps_durable_state_witness :
  0 <= num_flushed crash_example ∧
  log (crash crash_example) =
    [Log.Update 0 "1" "A" "⊥" "a" None; Log.Update 1 "2" "B" "⊥" "b" None] ∧
  txn_table (crash crash_example) = ∅ ∧
  disk (crash crash_example) = disk crash_example.
Proof.
  assert (H : 0 <= num_flushed crash_example) by (simpl; lia).
  pose proof (crash_keeps_durable_state crash_example H)
    as (Hlog & _ & _ & Htt & _ & _ & _ & Hdisk & _).
  split; [exact H |]. split; [exact Hlog |]. split; [exact Htt | exact Hdisk].
Defined.

(** ** Redo: where the scan starts *)

Lemma min_rec_lsn_fold (dpt : DirtyPageTable) :
  let r := map_fold (λ _ (e : DirtyPageTableEntry.t) (min : option Z),
                       match min with
                       | None => Some (DirtyPageTableEntry.rec_lsn e)
                       | Some m => Some (Z.min m (DirtyPageTableEntry.rec_lsn e))
                       end) None dpt in
  (dpt = ∅ ∧ r = None) ∨
  (∃ m, r = Some m ∧
        (∃ page_id d, dpt !! page_id = Some d ∧
                      DirtyPageTableEntry.rec_lsn d = m) ∧
        ∀ page_id d, dpt !! page_id = Some d →
                     m <= DirtyPageTableEntry.rec_lsn d).
Proof.
  cbv zeta. apply (map_fold_weak_ind (λ r dpt,
    (dpt = ∅ ∧ r = None) ∨
    (∃ m, r = Some m ∧
          (∃ page_id d, dpt !! page_id = Some d ∧
                        DirtyPageTableEntry.rec_lsn d = m) ∧
          ∀ page_id d, dpt !! page_id = Some d →
                       m <= DirtyPageTableEntry.rec_lsn d))).
  - by left.
  - intros k e m r Hk IH. right.
    destruct IH as [[-> ->] | (v & -> & (k' & d' & Hk' & Hv) & Hmin)].
    + exists (DirtyPageTableEntry.rec_lsn e). split; [done |]. split.
      * exists k, e. by rewrite lookup_insert_eq.
      * intros k2 d2. rewrite lookup_insert. case_decide; [| done].
        intros [= <-]. lia.
    + exists (Z.min v (DirtyPageTableEntry.rec_lsn e)). split; [done |]. split.
      * destruct (Z.min_spec v (DirtyPageTableEntry.rec_lsn e))
          as [[_ ->] | [_ ->]].
        -- exists k', d'. rewrite lookup_insert_ne; [done |].
           intros ->. congruence.
        -- exists k, e. by rewrite lookup_insert_eq.
      * intros k2 d2. rewrite lookup_insert. case_decide.
        -- intros [= <-]. lia.
        -- intros Hk2. specialize (Hmin _ _ Hk2). lia.
Qed.

Lemma min_rec_lsn_empty (state : State) :
  dirty_page_table state = ∅ → min_rec_lsn state = None.
Proof. unfold min_rec_lsn. intros ->. apply map_fold_empty. Qed.

Lemma min_rec_lsn_is_min (state : State) :
  dirty_page_table state ≠ ∅ →
  ∃ m, min_rec_lsn state = Some m ∧
       (∃ page_id d, dirty_page_table state !! page_id = Some d ∧
                     DirtyPageTableEntry.rec_lsn d = m) ∧
       ∀ page_id d, dirty_page_table state !! page_id = Some d →
                    m <= DirtyPageTableEntry.rec_lsn d.
Proof.
  intros Hne. unfold min_rec_lsn.
  destruct (min_rec_lsn_fold (dirty_page_table state)) as [[? _] | H]; done.
Qed.

(** The state Analysis ends in on the history of the single operation
    Commit_1(): nothing is dirty, the scan position is 2. *)
Definition clean_example : State :=
  mkState ANALYSIS [Op.Commit "1"] 1
          [Log.Commit 0 "1" None; Log.End_ 1 "1" (Some 0)] 2 (Some 2)
          ∅ ∅ ∅ ∅.

Lemma clean_example_reached :
  (forward_process [init (new_State [Op.Commit "1"]) [Op.Commit "1"]]
                   [Op.Commit "1"]
     ≫= λ states, crash_state ← deep_copy (last states);
                   analysis (states ++ [crash crash_state]))
  ≫= (λ states, Ok (last states)) = Ok (Some clean_example).
Proof. reflexivity. Qed.

(** C9 as stated, at one history: with an empty dirty page table Redo
    changes nothing but the phase, be it in its working copy or in the
    last state of the history it returns. *)
Definition redo_only_sets_phase (states : list State) : Prop :=
  ∀ state, last states = Some state → dirty_page_table state = ∅ →
    (∃ states', redo_run states = Ok (states', set_phase REDO state)) ∨
    (∃ states', redo states = Ok states' ∧
                last states' = Some (set_phase REDO state)).

(** C9, counterexample: after Analysis of Commit_1() the dirty page table
    is empty; Redo clears the scan position of its working copy besides
    setting the phase, and returns the history as it was, the last state
    still in phase Analysis. *)
Lemma redo_only_sets_phase_fails : ¬ redo_only_sets_phase [clean_example].
Proof.
  intros H. destruct (H clean_example) as [[states' H1] | (states' & H1 & H2)];
    [reflexivity | reflexivity | |].
  - vm_compute in H1. discriminate.
  - vm_compute in H1. injection H1 as <-. vm_compute in H2. discriminate.
Qed.

(** C9, amended: with an empty dirty page table Redo scans nothing and
    returns the history unchanged, no snapshot added; its working copy, which
    is dropped, has the phase Redo and no scan position.  Otherwise the scan
    starts at the minimum recLSN of the dirty page table, from a working
    copy in phase Redo positioned there. *)
Theorem redo_start (states : list State) (state : State) :
  last states = Some state →
  (dirty_page_table state = ∅ →
     redo_run states
       = Ok (states, set_log_position None (set_phase REDO state)) ∧
     redo states = Ok states) ∧
  (dirty_page_table state ≠ ∅ →
     ∃ m, min_rec_lsn state = Some m ∧
       (∃ page_id d, dirty_page_table state !! page_id = Some d ∧
                     DirtyPageTableEntry.rec_lsn d = m) ∧
       (∀ page_id d, dirty_page_table state !! page_id = Some d →
                     m <= DirtyPageTableEntry.rec_lsn d) ∧
       redo_run states =
         if decide (m < 0) then Throw TypeError
         else redo_loop (drop (Z.to_nat m) (log state))
                (set_log_position (Some m) (set_phase REDO state)) states).
Proof.
  intros Hlast. split.
  - intros Hempty. unfold redo, redo_run, redo_begin.
    rewrite Hlast. simpl. by rewrite (min_rec_lsn_empty _ Hempty).
  - intros Hne.
    destruct (min_rec_lsn_is_min _ Hne) as (m & Hm & Hex & Hmin).
    exists m. repeat split; [done.. |].
    unfold redo_run, redo_begin. rewrite Hlast. simpl. by rewrite Hm.
Qed.

(** The post-analysis state of W_1(A,x), Commit_1(): page A is dirty from
    LSN 0 on and was never written to disk. *)
Definition dirty_example : State :=
  mkState ANALYSIS [Op.Write "1" "A" "x"; Op.Commit "1"] 2
          [Log.Update 0 "1" "A" "⊥" "x" None; Log.Commit 1 "1" (Some 0);
           Log.End_ 2 "1" (Some 1)] 3 (Some 3)
          ∅ {["A" := DirtyPageTableEntry.mk 0]} ∅
          {["A" := Page.mk (-1) "⊥"]}.

Lemma dirty_example_reached :
  let ops := [Op.Write "1" "A" "x"; Op.Commit "1"] in
  (forward_process [init (new_State ops) ops] ops
     ≫= λ states, crash_state ← deep_copy (last states);
                   analysis (states ++ [crash crash_state]))
  ≫= (λ states, Ok (last states)) = Ok (Some dirty_example).
Proof. vm_compute. reflexivity. Qed.

Lemma redo_start_witness :
  (last [clean_example] = Some clean_example ∧
   redo [clean_example] = Ok [clean_example]) ∧
  (last [dirty_example] = Some dirty_example ∧
   ∃ m, min_rec_lsn dirty_example = Some m ∧
        redo_run [dirty_example] =
          if decide (m < 0) then Throw TypeError
          else redo_loop (drop (Z.to_nat m) (log dirty_example))
                 (set_log_position (Some m) (set_phase REDO dirty_example))
                 [dirty_example]).
Proof.
  split.
  - split; [reflexivity |].
    apply (redo_start [clean_example] clean_example); reflexivity.
  - split; [reflexivity |].
    destruct (redo_start [dirty_example] dirty_example eq_refl) as [_ H].
    destruct H as (m & Hm & _ & _ & Hrun).
    + intros Hempty. apply (f_equal (λ dpt, dpt !! "A")) in Hempty.
      vm_compute in Hempty. discriminate.
    + exists m. split; [exact Hm | exact Hrun].
Defined.

(** ** Redo: a second pass *)

(** The three tests of [redo_update], in the order of the source: whether
    the update at [lsn] on [page_id] is left alone. *)
Definition redo_update_skips (state : State) (lsn : Z) (page_id : string)
  : bool :=
  match dirty_page_table state !! page_id with
  | None => true
  | Some d =>
      if decide (DirtyPageTableEntry.rec_lsn d > lsn) then true
      else match disk state !! page_id with
           | Some p => bool_decide (Page.page_lsn p >= lsn)
           | None => false
           end
  end.

Lemma redo_update_eq (state : State) (lsn : Z) (page_id after : string) :
  redo_update state lsn page_id after =
    if redo_update_skips state lsn page_id then Ok state
    else if bool_decide (is_Some (disk state !! page_id))
         then Ok (set_buffer_pool
                    (<[page_id := Page.mk lsn after]> (buffer_pool state))
                    state)
         else Throw TypeError.
Proof.
  unfold redo_update, redo_update_skips.
  destruct (dirty_page_table state !! page_id) as [d|]; [| done].
  destruct (decide (DirtyPageTableEntry.rec_lsn d > lsn)); [done |].
  destruct (disk state !! page_id) as [p|] eqn:Hdisk; [| done]. simpl.
  destruct (decide (Page.page_lsn p >= lsn)) as [Hge|Hlt].
  { by rewrite bool_decide_eq_true_2. }
  rewrite bool_decide_eq_false_2 by done.
  unfold pin. rewrite Hdisk. simpl.
  destruct (buffer_pool state !! page_id) as [q|] eqn:Hbp; simpl.
  - unfold set_page. by rewrite Hbp.
  - unfold set_page. unfold_state. rewrite lookup_insert_eq. simpl.
    by rewrite insert_insert_eq.
Qed.

(** The page a scan over [entries] leaves in the buffer pool for [page],
    [acc] being the page found there before the scan.  The tests are those
    of [tables], which no step of the scan changes. *)
Fixpoint redone (tables : State) (entries : list Log.Entry) (page : string)
  (acc : option Page.t) : option Page.t :=
  match entries with
  | [] => acc
  | Log.Update lsn _ page_id _ after _ :: entries' =>
      redone tables entries' page
        (if redo_update_skips tables lsn page_id then acc
         else if decide (page_id = page) then Some (Page.mk lsn after)
              else acc)
  | _ :: entries' => redone tables entries' page acc
  end.

Lemma redone_acc (tables : State) (entries : list Log.Entry) (page : string)
  (acc : option Page.t) :
  redone tables entries page acc =
    match redone tables entries page None with
    | Some p => Some p
    | None => acc
    end.
Proof.
  revert acc. induction entries as [|e entries IH]; intros acc; [done |].
  destruct e; simpl; try apply IH.
  destruct (redo_update_skips tables lsn page_id); [apply IH |].
  destruct (decide (page_id = page)); [| apply IH].
  rewrite (IH (Some _)).
  by destruct (redone tables entries page None).
Qed.

Lemma redone_twice (tables : State) (entries : list Log.Entry) (page : string)
  (acc : option Page.t) :
  redone tables entries page (redone tables entries page acc) =
    redone tables entries page acc.
Proof.
  rewrite (redone_acc _ _ _ (redone _ _ _ acc)), (redone_acc _ _ _ acc).
  by destruct (redone tables entries page None).
Qed.

Lemma redo_update_skips_tables (s1 s2 : State) (lsn : Z) (page_id : string) :
  dirty_page_table s1 = dirty_page_table s2 → disk s1 = disk s2 →
  redo_update_skips s1 lsn page_id = redo_update_skips s2 lsn page_id.
Proof. unfold redo_update_skips. by intros -> ->. Qed.

Lemma redone_tables (s1 s2 : State) (entries : list Log.Entry) (page : string)
  (acc : option Page.t) :
  dirty_page_table s1 = dirty_page_table s2 → disk s1 = disk s2 →
  redone s1 entries page acc = redone s2 entries page acc.
Proof.
  intros Hd Hk. revert acc.
  induction entries as [|e entries IH]; intros acc; [done |].
  destruct e; simpl; try apply IH.
  by rewrite (redo_update_skips_tables s1 s2), IH.
Qed.

(** What one step of the scan of Redo does to the state. *)
Lemma redo_entry_inv (state state' : State) (e : Log.Entry) :
  redo_entry state e = Ok state' →
  phase state' = phase state ∧ ops state' = ops state ∧
  num_ops_processed state' = num_ops_processed state ∧
  log state' = log state ∧ num_flushed state' = num_flushed state ∧
  log_position state' = log_position state ∧
  txn_table state' = txn_table state ∧
  dirty_page_table state' = dirty_page_table state ∧
  disk state' = disk state ∧
  ∀ page, buffer_pool state' !! page
          = redone state [e] page (buffer_pool state !! page).
Proof.
  destruct e; simpl; try (intros [= <-]; by repeat split).
  rewrite redo_update_eq.
  destruct (redo_update_skips state lsn page_id).
  { intros [= <-]. by repeat split. }
  case_bool_decide; [| discriminate].
  intros [= <-]. repeat split. intros page. simpl.
  destruct (decide (page_id = page)) as [->|Hne].
  - by rewrite lookup_insert_eq.
  - by rewrite lookup_insert_ne.
Qed.

Lemma state_eq (s1 s2 : State) :
  phase s1 = phase s2 → ops s1 = ops s2 →
  num_ops_processed s1 = num_ops_processed s2 →
  log s1 = log s2 → num_flushed s1 = num_flushed s2 →
  log_position s1 = log_position s2 →
  txn_table s1 = txn_table s2 →
  dirty_page_table s1 = dirty_page_table s2 →
  buffer_pool s1 = buffer_pool s2 → disk s1 = disk s2 →
  s1 = s2.
Proof. destruct s1, s2. simpl. by intros; subst. Qed.

Lemma redone_cons (tables : State) (e : Log.Entry) (entries : list Log.Entry)
  (page : string) (acc : option Page.t) :
  redone tables (e :: entries) page acc =
    redone tables entries page (redone tables [e] page acc).
Proof. by destruct e. Qed.

Lemma redo_entry_tables (s1 s1' s2 : State) (e : Log.Entry) :
  redo_entry s1 e = Ok s1' →
  dirty_page_table s2 = dirty_page_table s1 → disk s2 = disk s1 →
  ∃ s2', redo_entry s2 e = Ok s2'.
Proof.
  intros H Hd Hk. destruct e; simpl in *; try (by eexists).
  rewrite redo_update_eq in *.
  rewrite (redo_update_skips_tables s2 s1) by done. rewrite Hk.
  destruct (redo_update_skips s1 lsn page_id); [by eexists |].
  case_bool_decide; [by eexists | discriminate].
Qed.

(** What the scan of Redo over [entries] does to the working state and to
    the history. *)
Lemma redo_loop_inv (entries : list Log.Entry) :
  ∀ (state : State) (states states' : list State) (state' : State),
    redo_loop entries state states = Ok (states', state') →
    phase state' = phase state ∧ ops state' = ops state ∧
    num_ops_processed state' = num_ops_processed state ∧
    log state' = log state ∧ num_flushed state' = num_flushed state ∧
    log_position state'
      = (λ p, p + Z.of_nat (length entries)) <$> log_position state ∧
    txn_table state' = txn_table state ∧
    dirty_page_table state' = dirty_page_table state ∧
    disk state' = disk state ∧
    (∀ page, buffer_pool state' !! page
             = redone state entries page (buffer_pool state !! page)) ∧
    last states' = match entries with [] => last states | _ => Some state' end.
Proof.
  induction entries as [|e entries IH]; intros state states states' state' H.
  { injection H as <- <-. repeat split; try done.
    simpl. destruct (log_position state); simpl; f_equal; lia. }
  simpl in H. inv_bind H.
  pose proof (redo_entry_inv _ _ _ Hx)
    as (Hph & Hops & Hn & Hlog & Hnf & Hpos & Htt & Hdpt & Hdisk & Hbp).
  assert (Hlast : last states' = Some state').
  { destruct entries; [| by apply IH in H; intuition].
    injection H as <- <-. apply last_snoc. }
  apply IH in H as (Hph' & Hops' & Hn' & Hlog' & Hnf' & Hpos' & Htt' & Hdpt'
                    & Hdisk' & Hbp' & _).
  assert (Hredone : ∀ page,
            buffer_pool state' !! page
            = redone state (e :: entries) page (buffer_pool state !! page)).
  { intros page. rewrite Hbp'.
    change (buffer_pool (advance x)) with (buffer_pool x).
    rewrite Hbp, (redone_cons state e entries).
    apply redone_tables; [exact Hdpt | exact Hdisk]. }
  clear Hbp Hbp'. unfold advance in *. unfold_state.
  repeat split; try congruence; [| exact Hredone].
  rewrite Hpos', Hpos. destruct (log_position state); simpl; f_equal; lia.
Qed.

Lemma redo_loop_tables (entries : list Log.Entry) :
  ∀ (s1 s2 : State) (states1 states2 : list State) r,
    redo_loop entries s1 states1 = Ok r →
    dirty_page_table s2 = dirty_page_table s1 → disk s2 = disk s1 →
    ∃ r2, redo_loop entries s2 states2 = Ok r2.
Proof.
  induction entries as [|e entries IH]; intros s1 s2 states1 states2 r H Hd Hk.
  { by eexists. }
  simpl in H. inv_bind H.
  destruct (redo_entry_tables _ _ s2 _ Hx Hd Hk) as [s2' Hs2'].
  simpl. rewrite Hs2'. simpl.
  pose proof (redo_entry_inv _ _ _ Hx) as (_&_&_&_&_&_&_& Hd1 & Hk1 &_).
  pose proof (redo_entry_inv _ _ _ Hs2') as (_&_&_&_&_&_&_& Hd2 & Hk2 &_).
  eapply IH; [exact H | |]; unfold advance; unfold_state; congruence.
Qed.

Lemma min_rec_lsn_tables (s1 s2 : State) :
  dirty_page_table s1 = dirty_page_table s2 → min_rec_lsn s1 = min_rec_lsn s2.
Proof. unfold min_rec_lsn. by intros ->. Qed.

Lemma redo_run_inv (states states1 : list State) (st1 : State) :
  redo_run states = Ok (states1, st1) →
  ∃ state, last states = Some state ∧
    ((min_rec_lsn state = None ∧ states1 = states ∧ st1 = redo_begin state) ∨
     (∃ m, min_rec_lsn state = Some m ∧ 0 <= m ∧
           redo_loop (drop (Z.to_nat m) (log state)) (redo_begin state) states
             = Ok (states1, st1))).
Proof.
  unfold redo_run. intros H. inv_bind H.
  destruct (last states) as [state|]; [| discriminate].
  injection Hx as <-. exists state. split; [done |].
  destruct (min_rec_lsn state) as [m|].
  - right. exists m. destruct (decide (m < 0)); [discriminate |].
    repeat split; [lia | done].
  - left. by injection H as <- <-.
Qed.

Lemma redo_Ok (states states1 : list State) :
  redo states = Ok states1 → ∃ st1, redo_run states = Ok (states1, st1).
Proof.
  unfold redo. destruct (redo_run states) as [[sts st]| |]; try discriminate.
  intros [= <-]. by eexists.
Qed.

(** C6 as stated, at one history: after a first pass of Redo, every Update
    entry that a second pass scans meets one of the three skip
    conditions. *)
Definition second_redo_skips_all (states : list State) : Prop :=
  ∀ states1 state1 start,
    redo states = Ok states1 → last states1 = Some state1 →
    min_rec_lsn state1 = Some start →
    ∀ lsn txn_id page_id before after prev_lsn,
      Log.Update lsn txn_id page_id before after prev_lsn
        ∈ drop (Z.to_nat start) (log state1) →
      redo_update_skips state1 lsn page_id = true.

(** C6, counterexample: after W_1(A,x), Commit_1() and a crash, the first
    pass of Redo reapplies the update at LSN 0; page A is still in the
    dirty page table with recLSN 0 and still has page LSN -1 on disk, so the
    second pass meets none of the skip conditions and reapplies it. *)
Lemma second_redo_skips_all_fails : ¬ second_redo_skips_all [dirty_example].
Proof.
  pose (state1 :=
          mkState REDO [Op.Write "1" "A" "x"; Op.Commit "1"] 2
            [Log.Update 0 "1" "A" "⊥" "x" None;
             Log.Commit 1 "1" (Some 0); Log.End_ 2 "1" (Some 1)]
            3 (Some 3) ∅ {["A" := DirtyPageTableEntry.mk 0]}
            {["A" := Page.mk 0 "x"]} {["A" := Page.mk (-1) "⊥"]}).
  assert (∃ states1, redo [dirty_example] = Ok states1 ∧
                     last states1 = Some state1) as (states1 & Hredo & Hlast).
  { eexists. split; vm_compute; reflexivity. }
  assert (Hskip : redo_update_skips state1 0 "A" = false) by reflexivity.
  intros H.
  rewrite (H states1 state1 0 Hredo Hlast eq_refl 0 "1" "A" "⊥" "x" None)
    in Hskip; [discriminate |].
  simpl. left.
Qed.

(** C6, amended: a second pass of Redo right after a first one succeeds and
    ends in the same state as the first.  Redo changes neither the dirty
    page table nor the disk, so the three skip conditions come out the same
    in both passes: the updates the first pass reapplied are reapplied
    again, with the same page LSNs and values. *)
Theorem redo_twice (states states1 : list State) :
  redo states = Ok states1 →
  ∃ states2,
    redo states1 = Ok states2 ∧
    last states2 = last states1 ∧
    ∀ state state1, last states = Some state → last states1 = Some state1 →
      dirty_page_table state1 = dirty_page_table state ∧
      disk state1 = disk state ∧
      ∀ lsn page_id, redo_update_skips state1 lsn page_id
                     = redo_update_skips state lsn page_id.
Proof.
  intros H. pose proof H as Hredo. apply redo_Ok in H as [st1 H].
  apply redo_run_inv in H
    as (state & Hlast & [(Hm & -> & ->) | (m & Hm & Hpos & Hloop)]).
  { exists states. repeat split; try done; congruence. }
  destruct (drop (Z.to_nat m) (log state)) as [|e entries] eqn:Hdrop.
  { injection Hloop as <- <-.
    exists states. repeat split; try done; congruence. }
  pose proof (redo_loop_inv _ _ _ _ _ Hloop)
    as (Hph & Hops & Hn & Hlog & Hnf & Hlp & Htt & Hdpt & Hdisk & Hbp & Hlast1).
  change (dirty_page_table (redo_begin state)) with (dirty_page_table state)
    in Hdpt.
  change (disk (redo_begin state)) with (disk state) in Hdisk.
  assert (Hm1 : min_rec_lsn st1 = Some m)
    by (by rewrite (min_rec_lsn_tables st1 state)).
  assert (Hdrop1 : drop (Z.to_nat m) (log st1) = e :: entries)
    by (by rewrite Hlog).
  destruct (redo_loop_tables (e :: entries) (redo_begin state) (redo_begin st1)
              states states1 _ Hloop) as [[states2 st2] Hloop2];
    [exact Hdpt | exact Hdisk |].
  assert (Hrun2 : redo_run states1 = Ok (states2, st2)).
  { unfold redo_run. rewrite Hlast1. simpl. rewrite Hm1.
    rewrite decide_False by lia.
    change (log (redo_begin st1)) with (log st1). by rewrite Hdrop1. }
  pose proof (redo_loop_inv _ _ _ _ _ Hloop2)
    as (Hph2 & Hops2 & Hn2 & Hlog2 & Hnf2 & Hlp2 & Htt2 & Hdpt2 & Hdisk2
        & Hbp2 & Hlast2).
  assert (Heq : st2 = st1).
  { apply state_eq; try (unfold redo_begin in *; unfold_state; congruence).
    apply map_eq. intros page. rewrite Hbp2.
    change (buffer_pool (redo_begin st1)) with (buffer_pool st1).
    rewrite Hbp.
    rewrite (redone_tables (redo_begin st1) (redo_begin state)) by done.
    apply redone_twice. }
  exists states2. split; [unfold redo; by rewrite Hrun2 |].
  split; [congruence |].
  intros state0 state1 Hs0 Hs1.
  assert (state0 = state) as -> by congruence.
  assert (state1 = st1) as -> by congruence.
  repeat split; [done.. |].
  intros lsn page_id. by apply redo_update_skips_tables.
Qed.

Lemma redo_twice_witness :
  ∃ states1 states2,
    redo [dirty_example] = Ok states1 ∧
    redo states1 = Ok states2 ∧ last states2 = last states1.
Proof.
  assert (H : redo [dirty_example] = Ok (history_of (redo [dirty_example])))
    by (vm_compute; reflexivity).
  pose proof (redo_twice [dirty_example] _ H) as Hs.
  destruct Hs as (states2 & H2 & Hlast & _).
  exists (history_of (redo [dirty_example])), states2.
  split; [exact H |]. split; [exact H2 | exact Hlast].
Defined.

(** ** Undo *)

#[global] Instance Phase_eq_dec : EqDecision Phase.
Proof. solve_decision. Defined.

(** The snapshots of a history taken in phase [p]. *)
Definition snapshots (p : Phase) (states : list State) : list State :=
  filter (λ s, phase s = p) states.

(** *** The order of [losers.sort()]

    The sorted array is the same for every order in which the loser LSNs
    were pushed; the key order of the transaction table, in which [undo]
    collects them, has no effect on what Undo does. *)

Definition js_le (x y : option Z) : Prop := js_sort_le x y = true.

Lemma string_leb_iff (a b : string) :
  String.leb a b = true ↔ String_as_OT.lt a b ∨ a = b.
Proof.
  unfold String.leb.
  pose proof (String_as_OT.cmp_lt a b) as Hlt.
  pose proof (String_as_OT.cmp_eq a b) as Heq.
  unfold String_as_OT.cmp in *.
  destruct (String.compare a b); split; intros H; try done.
  - right. by apply Heq.
  - left. by apply Hlt.
  - destruct H as [H | H]; [by apply Hlt in H | by apply Heq in H].
Qed.

Lemma js_to_string_inj (a b : Z) : js_to_string a = js_to_string b → a = b.
Proof.
  unfold js_to_string. intros H.
  assert (Hnil : ∀ z, Z.to_int z ≠ Decimal.Pos Decimal.Nil ∧
                      Z.to_int z ≠ Decimal.Neg Decimal.Nil).
  { intros z. split; intros Hz; pose proof (DecimalZ.of_to z) as Hof;
      rewrite Hz in Hof; simpl in Hof; subst z; discriminate. }
  apply DecimalZ.to_int_inj.
  pose proof (NilZero.isi (Z.to_int a) (proj1 (Hnil a)) (proj2 (Hnil a))) as Ha.
  pose proof (NilZero.isi (Z.to_int b) (proj1 (Hnil b)) (proj2 (Hnil b))) as Hb.
  rewrite H in Ha. congruence.
Qed.

#[global] Instance js_le_trans : Transitive js_le.
Proof.
  intros [a|] [b|] [c|]; unfold js_le; simpl; try done.
  rewrite !string_leb_iff. intros [H1 | H1] [H2 | H2].
  - left. by eapply String_as_OT.lt_trans.
  - left. by rewrite <- H2.
  - left. by rewrite H1.
  - right. congruence.
Qed.

#[global] Instance js_le_antisym : AntiSymm (=) js_le.
Proof.
  intros [a|] [b|]; unfold js_le; simpl; try done.
  intros H1 H2. f_equal. apply js_to_string_inj. by apply String.leb_antisym.
Qed.

Lemma js_le_total (x y : option Z) : js_le x y ∨ js_le y x.
Proof.
  destruct x as [a|], y as [b|]; unfold js_le; simpl; eauto.
  apply String.leb_total.
Qed.

Lemma js_sort_insert_perm (x : option Z) (l : list (option Z)) :
  js_sort_insert x l ≡ₚ x :: l.
Proof.
  induction l as [|y l IH]; simpl; [done |].
  destruct (js_sort_le x y); [done |]. rewrite IH. apply Permutation_swap.
Qed.

Lemma js_sort_perm (l : list (option Z)) : js_sort l ≡ₚ l.
Proof.
  induction l as [|x l IH]; simpl; [done |].
  by rewrite js_sort_insert_perm, IH.
Qed.

Lemma js_sort_insert_sorted (x : option Z) (l : list (option Z)) :
  Sorted js_le l → Sorted js_le (js_sort_insert x l).
Proof.
  induction 1 as [|y l Hsorted IH Hhd]; simpl.
  { by repeat constructor. }
  destruct (js_sort_le x y) eqn:Hxy.
  { by repeat constructor. }
  constructor; [exact IH |].
  destruct Hhd as [|z l Hyz]; simpl.
  - constructor. destruct (js_le_total x y) as [H | H]; [| done].
    unfold js_le in H. congruence.
  - destruct (js_sort_le x z); constructor; [| done].
    destruct (js_le_total x y) as [H | H]; [| done].
    unfold js_le in H. congruence.
Qed.

Lemma js_sort_sorted (l : list (option Z)) : Sorted js_le (js_sort l).
Proof.
  induction l as [|x l IH]; simpl; [constructor |].
  by apply js_sort_insert_sorted.
Qed.

Lemma js_sort_order_irrelevant (l1 l2 : list (option Z)) :
  l1 ≡ₚ l2 → js_sort l1 = js_sort l2.
Proof.
  intros H. apply (Sorted_unique js_le); try apply js_sort_sorted.
  by rewrite !js_sort_perm.
Qed.

Lemma undo_step_order_irrelevant (state : State) (l1 l2 : list (option Z)) :
  l1 ≡ₚ l2 → undo_step state l1 = undo_step state l2.
Proof.
  intros H. unfold undo_step. by rewrite (js_sort_order_irrelevant l1 l2).
Qed.

(** The CLR an iteration of the loop of Undo appends: its [after] field
    receives the prev_lsn of the undone entry and its [undo_next_lsn] field
    the before-image, the fourth and fifth arguments of the call being in
    the opposite order of the constructor's parameters. *)
Lemma undo_step_clr (state state' : State) (losers losers' : list (option Z)) :
  undo_step state losers = Ok (state', losers') →
  ∃ loser lsn txn_id page_id before after prev_lsn,
    mjoin (last (js_sort losers)) = Some loser ∧
    js_index (log state) loser
      = Some (Log.Update lsn txn_id page_id before after prev_lsn) ∧
    js_index (log state') (log_length state)
      = Some (Log.CLR (log_length state) txn_id page_id
                (js_of_number prev_lsn) (JString before)
                (last_lsn state txn_id)) ∧
    log_position state' = Some lsn.
Proof.
  unfold undo_step. intros H. inv_bind H as e He. inv_bind H as u Hu.
  destruct (mjoin (last (js_sort losers))) as [loser|]; [| discriminate].
  simpl in He. destruct (js_index (log state) loser) as [e'|] eqn:Hidx;
    [| discriminate].
  injection He as <-.
  destruct e' as [lsn txn_id page_id before after prev_lsn| | | |];
    try discriminate.
  inv_bind H as x1 Hx1. inv_bind H as x2 Hx2. inv_bind H as x3 Hx3.
  exists loser, lsn, txn_id, page_id, before, after, prev_lsn.
  split; [done |]. split; [done |].
  assert (Hlog3 : log x3 = log state ++
                      [Log.CLR (log_length state) txn_id page_id
                         (js_of_number prev_lsn) (JString before)
                         (last_lsn state txn_id)]).
  { unfold set_last_lsn in Hx3. inv_bind Hx3 as t Ht. injection Hx3 as <-.
    unfold set_page in Hx2. inv_bind Hx2 as q Hq. injection Hx2 as <-.
    unfold pin in Hx1. inv_bind Hx1 as v Hv.
    destruct (buffer_pool _ !! page_id).
    - by injection Hx1 as <-.
    - inv_bind Hx1 as d Hd. by injection Hx1 as <-. }
  assert (Hlog : ∃ rest,
             log state' = log state ++
                            Log.CLR (log_length state) txn_id page_id
                              (js_of_number prev_lsn) (JString before)
                              (last_lsn state txn_id) :: rest).
  { destruct prev_lsn; injection H as <- <-.
    - by exists [].
    - eexists [_]. unfold_state. rewrite Hlog3.
      rewrite <- app_assoc. reflexivity. }
  destruct Hlog as (rest & Hlog').
  split.
  - rewrite Hlog'. unfold js_index, log_length.
    rewrite decide_True by lia. rewrite Nat2Z.id.
    by rewrite list_lookup_middle.
  - by destruct prev_lsn; injection H as <- <-.
Qed.

(** Two losers whose only updates are on page A at LSNs 9 and 10; the
    checkpoint at LSN 11 records both as in progress, and the last commit
    makes the log durable up to LSN 13. *)
Definition loser_ops : list Op.Operation :=
  [Op.Write "3" "B" "b"; Op.Commit "3"; Op.Commit "4"; Op.Commit "5";
   Op.Commit "6"; Op.Write "1" "A" "x"; Op.Write "2" "A" "y"; Op.Checkpoint;
   Op.Commit "7"].

(** A loser with two updates of page A, made durable by the flush. *)
Definition chain_ops : list Op.Operation :=
  [Op.Write "1" "A" "x"; Op.Write "1" "A" "y"; Op.Flush "A"].

(** C1, on the operations [loser_ops]: the loser LSNs are 9 and 10, and
    Undo takes LSN 9 first and LSN 10 second, since the array sorted without
    a comparison function has 10 in front of 9, in whichever order the
    two were pushed.  The components of the result are: the sorted loser
    LSNs at the start of Undo; the LSN undone by the first iteration and the
    losers it leaves, from the array [9, 10] and from the array [10, 9]; the
    scan positions (the LSNs undone) of the states Undo adds to the
    history. *)
Theorem undo_takes_9_before_10 :
  (states ← simulate 100 loser_ops;
   state ← defined (last (snapshots REDO states));
   let state := set_phase UNDO state in
   '(state1, losers1) ← undo_step state [Some 9; Some 10];
   '(state2, losers2) ← undo_step state [Some 10; Some 9];
   Ok (js_sort (loser_lsns state),
       (log_position state1, losers1),
       (log_position state2, losers2),
       log_position <$> snapshots UNDO states))
  = Ok ([Some 10; Some 9],
        (Some 9, [Some 10]),
        (Some 9, [Some 10]),
        [Some 9; Some 10; Some 10]).
Proof. vm_compute. reflexivity. Qed.

(** C2, on the operations [chain_ops]: Undo undoes the update at LSN 1
    (before-image x, prev_lsn 0) and then the update at LSN 0 (before-image
    ⊥, no prev_lsn).  The CLRs appended at LSNs 2 and 3 hold the prev_lsn of
    the undone entry in [after] and its before-image in [undo_next_lsn]. *)
Theorem undo_clr_fields_swapped :
  (states ← simulate 100 chain_ops;
   final ← defined (last states);
   Ok (log final))
  = Ok [Log.Update 0 "1" "A" "⊥" "x" None;
        Log.Update 1 "1" "A" "x" "y" (Some 0);
        Log.CLR 2 "1" "A" (JNumber 0) (JString "x") (Some 1);
        Log.CLR 3 "1" "A" JUndefined (JString "⊥") (Some 2);
        Log.End_ 4 "1" (Some 3)].
Proof. vm_compute. reflexivity. Qed.

(** C3, on the operations [loser_ops]: transactions 1 and 2 are aborted at
    the end of Analysis; transaction 1 wrote x to page A at LSN 9 and
    transaction 2 wrote y over it at LSN 10.  Undo, taking LSN 9 before LSN
    10, ends in phase Undo with an empty transaction table and with page A
    holding x, the value transaction 1 wrote. *)
Theorem undo_leaves_loser_value :
  (states ← simulate 100 loser_ops;
   analysed ← defined (last (snapshots ANALYSIS states));
   final ← defined (last states);
   Ok (TxnTableEntry.txn_status <$> txn_table analysed !! "1",
       TxnTableEntry.txn_status <$> txn_table analysed !! "2",
       js_index (log analysed) 9,
       js_index (log analysed) 10,
       phase final,
       map_to_list (txn_table final),
       buffer_pool final !! "A"))
  = Ok (Some (Some ABORTED),
        Some (Some ABORTED),
        Some (Log.Update 9 "1" "A" "⊥" "x" None),
        Some (Log.Update 10 "2" "A" "x" "y" None),
        UNDO,
        [],
        Some (Page.mk 16 "x")).
Proof. vm_compute. reflexivity. Qed.

(** ** Fatal violations *)












(** The scan stops at the first CLR it reaches, with the failed
    assertion. *)
Lemma analysis_loop_reaches_clr (pre post : list Log.Entry) (clr : Log.Entry) :
  ∀ (state : State) (states : list State) r,
    Log.is_clr clr = true →
    analysis_loop pre state states = Ok r →
    analysis_loop (pre ++ clr :: post) state states = Throw AssertionError.
Proof.
  induction pre as [|e pre IH]; intros state states r Hclr H; simpl.
  - by destruct clr.
  - simpl in H. inv_bind H as s Hs. rewrite Hs. simpl. by eapply IH.
Qed.

Lemma redo_loop_reaches_clr (pre post : list Log.Entry) (clr : Log.Entry) :
  ∀ (state : State) (states : list State) r,
    Log.is_clr clr = true →
    redo_loop pre state states = Ok r →
    redo_loop (pre ++ clr :: post) state states = Throw AssertionError.
Proof.
  induction pre as [|e pre IH]; intros state states r Hclr H; simpl.
  - by destruct clr.
  - simpl in H. inv_bind H as s Hs. rewrite Hs. simpl. by eapply IH.
Qed.

(** ** The history *)

(** Breaks a successful run of straight-line code into its steps. *)
Ltac inv_Ok :=
  repeat match goal with
    | H : Ok _ = Ok _ |- _ => injection H as <-
    | H : Throw _ = Ok _ |- _ => discriminate H
    | H : _ ≫= _ = Ok _ |- _ => inv_bind H
    | H : context [match ?x with _ => _ end] |- _ => destruct x eqn:?
    end.



Lemma set_last_lsn_phase (state state' : State) (txn_id : string) l :
  set_last_lsn state txn_id l = Ok state' → phase state' = phase state.
Proof. unfold set_last_lsn, defined. intros. by inv_Ok. Qed.

Lemma set_txn_status_phase (state state' : State) (txn_id : string) st :
  set_txn_status state txn_id st = Ok state' → phase state' = phase state.
Proof. unfold set_txn_status, defined. intros. by inv_Ok. Qed.

Lemma dirty_phase (state state' : State) (page_id : string) l :
  dirty state page_id l = Ok state' → phase state' = phase state.
Proof. unfold dirty, console_assert. intros. by inv_Ok. Qed.

Lemma begin_txn_phase (state : State) (txn_id : string) :
  phase (begin_txn state txn_id) = phase state.
Proof. unfold begin_txn. by case_match. Qed.

Lemma analysis_entry_phase (state state' : State) (e : Log.Entry) :
  analysis_entry state e = Ok state' → phase state' = phase state.
Proof.
  destruct e; simpl;
    unfold analysis_update, analysis_commit, analysis_end, analysis_clr,
      analysis_checkpoint; intros H.
  - inv_bind H as s Hs. apply set_last_lsn_phase in H.
    apply dirty_phase in Hs. rewrite begin_txn_phase in H. congruence.
  - inv_bind H as s Hs. apply set_last_lsn_phase in H.
    apply set_txn_status_phase in Hs. rewrite begin_txn_phase in Hs.
    congruence.
  - by injection H as <-.
  - discriminate.
  - inv_bind H as u Hu. by injection H as <-.
Qed.


Lemma analysis_loop_inv (entries : list Log.Entry) :
  ∀ (state : State) (states states' : list State) (state' : State),
    analysis_loop entries state states = Ok (states', state') →
    phase state' = phase state ∧
    ∃ k, states' = states ++ k ∧ length k = length entries.
Proof.
  induction entries as [|e entries IH]; intros state states states' state' H;
    simpl in H.
  - injection H as <- <-. split; [done |]. exists []. by rewrite app_nil_r.
  - inv_bind H as s Hs. apply analysis_entry_phase in Hs.
    apply IH in H as (Hph & k & -> & Hk). split; [by rewrite Hph |].
    eexists (_ :: k). rewrite <- app_assoc. split; [done |]. simpl. lia.
Qed.








(** The durable log of a recovery that was itself cut short by a crash: it
    holds the CLR written for the update at LSN 0. *)
Definition clr_example : State :=
  mkState CRASHED [] 0
          [Log.Update 0 "1" "A" "⊥" "x" None;
           Log.CLR 1 "1" "A" JUndefined (JString "⊥") (Some 0);
           Log.End_ 2 "1" (Some 1)]
          3 None ∅ ∅ ∅ {["A" := Page.mk (-1) "⊥"]}.


(** * Further properties of the simulator *)

(** ** The primitive steps, inverted *)

Lemma pin_inv (state state' : State) (page_id : string) :
  pin state page_id = Ok state' →
  ∃ d, disk state !! page_id = Some d ∧
       state' = match buffer_pool state !! page_id with
                | Some _ => state
                | None =>
                    set_buffer_pool (<[page_id := d]> (buffer_pool state)) state
                end.
Proof.
  unfold pin. intros H. inv_bind H as u Hu.
  apply console_assert_Ok, bool_decide_eq_true_1 in Hu as [d Hd].
  exists d. split; [done |]. rewrite Hd in H. simpl in H.
  destruct (buffer_pool state !! page_id); by injection H as <-.
Qed.

Lemma pin_absent (state : State) (page_id : string) :
  disk state !! page_id = None → pin state page_id = Throw AssertionError.
Proof.
  intros H. unfold pin. rewrite bool_decide_eq_false_2; [done |].
  rewrite H. by intros [? ?].
Qed.

Lemma pin_present (state : State) (page_id : string) (d : Page.t) :
  disk state !! page_id = Some d →
  pin state page_id =
    Ok (match buffer_pool state !! page_id with
        | Some _ => state
        | None =>
            set_buffer_pool (<[page_id := d]> (buffer_pool state)) state
        end).
Proof.
  intros H. unfold pin. rewrite H. simpl.
  by destruct (buffer_pool state !! page_id).
Qed.


Lemma set_last_lsn_inv (state state' : State) (txn_id : string) l :
  set_last_lsn state txn_id l = Ok state' →
  ∃ e, txn_table state !! txn_id = Some e ∧
       state' = set_txn_table
                  (<[txn_id := TxnTableEntry.mk (TxnTableEntry.txn_status e)
                                 (Some l)]> (txn_table state)) state.
Proof.
  unfold set_last_lsn. intros H. inv_bind H as e He.
  destruct (txn_table state !! txn_id) as [e'|]; [| discriminate].
  injection He as <-. injection H as <-. eauto.
Qed.

Lemma set_txn_status_inv (state state' : State) (txn_id : string) st :
  set_txn_status state txn_id st = Ok state' →
  ∃ e, txn_table state !! txn_id = Some e ∧
       state' = set_txn_table
                  (<[txn_id := TxnTableEntry.mk (Some st)
                                 (TxnTableEntry.last_lsn e)]>
                     (txn_table state)) state.
Proof.
  unfold set_txn_status. intros H. inv_bind H as e He.
  destruct (txn_table state !! txn_id) as [e'|]; [| discriminate].
  injection He as <-. injection H as <-. eauto.
Qed.

Lemma dirty_inv (state state' : State) (page_id : string) l :
  dirty state page_id l = Ok state' →
  is_Some (disk state !! page_id) ∧
  state' = match dirty_page_table state !! page_id with
           | Some _ => state
           | None =>
               set_dirty_page_table
                 (<[page_id := DirtyPageTableEntry.mk l]>
                    (dirty_page_table state)) state
           end.
Proof.
  unfold dirty. intros H. inv_bind H as u Hu.
  apply console_assert_Ok, bool_decide_eq_true_1 in Hu.
  split; [done |].
  destruct (dirty_page_table state !! page_id); by injection H as <-.
Qed.

Lemma dirty_present (state : State) (page_id : string) l :
  is_Some (disk state !! page_id) →
  dirty state page_id l =
    Ok (match dirty_page_table state !! page_id with
        | Some _ => state
        | None =>
            set_dirty_page_table
              (<[page_id := DirtyPageTableEntry.mk l]>
                 (dirty_page_table state)) state
        end).
Proof.
  intros H. unfold dirty. rewrite (bool_decide_eq_true_2 _ H). simpl.
  by destruct (dirty_page_table state !! page_id).
Qed.

(** ** Init *)

Lemma pages_accessed_spec (ops : list Op.Operation) (page : string) :
  page ∈ pages_accessed ops ↔
  (∃ txn_id value, Op.Write txn_id page value ∈ ops) ∨ Op.Flush page ∈ ops.
Proof.
  induction ops as [|op ops IH]; simpl.
  { setoid_rewrite elem_of_nil. split; [done |]. by intros [(? & ? & ?) | ?]. }
  destruct op; rewrite ?elem_of_cons, IH; setoid_rewrite elem_of_cons;
    (split; intros H;
     repeat match type of H with
       | _ ∨ _ => destruct H as [H | H]
       | ∃ _, _ => destruct H as [? H]
       end; simplify_eq; eauto 10).
Qed.

Lemma init_fold (pages : list string) :
  ∀ state : State,
    let state' := fold_left
                    (λ st page_id,
                       set_disk (<[page_id := Page.mk (-1) "⊥"]> (disk st)) st)
                    pages state in
    state' = set_disk (disk state') state ∧
    ∀ page, disk state' !! page =
            if decide (page ∈ pages) then Some (Page.mk (-1) "⊥")
            else disk state !! page.
Proof.
  induction pages as [|p pages IH]; intros state; simpl.
  { split; [by destruct state | done]. }
  destruct (IH (set_disk (<[p := Page.mk (-1) "⊥"]> (disk state)) state))
    as [Heq Hdisk].
  split; [by rewrite Heq at 1 |].
  intros page. rewrite Hdisk. simpl.
  destruct (decide (page ∈ pages)) as [Hin | Hnin];
    destruct (decide (page ∈ p :: pages)) as [Hin' | Hnin']; try done.
  - exfalso. apply Hnin'. by right.
  - apply elem_of_cons in Hin' as [-> | ?]; [| done]. apply lookup_insert_eq.
  - apply lookup_insert_ne. intros ->. apply Hnin'. by left.
Qed.

Lemma init_frame (state : State) (ops : list Op.Operation) :
  init state ops = set_disk (disk (init state ops)) state.
Proof.
  unfold init. by destruct (init_fold (pages_accessed ops) state).
Qed.

(** X1. [init] puts every page named by a Write or a Flush on disk with the
    dummy page LSN -1 and the dummy value, overwriting a page already
    there; it leaves the other pages of the disk and every other field of
    the state alone. *)
Theorem init_provisions (state : State) (ops : list Op.Operation) :
  init state ops = set_disk (disk (init state ops)) state ∧
  ∀ page,
    let named := (∃ txn_id value, Op.Write txn_id page value ∈ ops) ∨
                 Op.Flush page ∈ ops in
    (named → disk (init state ops) !! page = Some (Page.mk (-1) "⊥")) ∧
    (¬ named → disk (init state ops) !! page = disk state !! page).
Proof.
  unfold init. destruct (init_fold (pages_accessed ops) state) as [Heq Hdisk].
  split; [exact Heq |]. intros page. cbv zeta. rewrite Hdisk.
  pose proof (pages_accessed_spec ops page) as Hspec.
  destruct (decide (page ∈ pages_accessed ops)); split; tauto.
Qed.

(** ** The latest checkpoint *)

Lemma latest_checkpoint_from_spec (l : list Log.Entry) :
  ∀ i acc : Z,
    let r := latest_checkpoint_from l i acc in
    (r = acc ∧ ∀ e, e ∈ l → Log.is_checkpoint e = false) ∨
    (∃ (k : nat) e,
        l !! k = Some e ∧ Log.is_checkpoint e = true ∧ r = i + Z.of_nat k ∧
        ∀ (k' : nat) e', l !! k' = Some e' → Log.is_checkpoint e' = true →
                         (k' <= k)%nat).
Proof.
  induction l as [|e l IH]; intros i acc; simpl.
  { left. split; [done |]. by intros e ?%elem_of_nil. }
  destruct (IH (i + 1) (if Log.is_checkpoint e then i else acc))
    as [[Hr Hnone] | (k & c & Hk & Hc & Hr & Hmax)].
  - destruct (Log.is_checkpoint e) eqn:He.
    + right. exists 0%nat, e. repeat split; [done | lia |].
      intros [|k'] e' Hk' Hc'; [lia |]. simpl in Hk'.
      apply list_elem_of_lookup_2 in Hk'. apply Hnone in Hk'. congruence.
    + left. split; [done |]. intros e' [-> | ?]%elem_of_cons; eauto.
  - right. exists (S k), c. repeat split; [done | done | lia |].
    intros [|k'] e' Hk' Hc'; [lia |]. simpl in Hk'.
    specialize (Hmax _ _ Hk' Hc'). lia.
Qed.

(** X2. [latest_checkpoint_lsn] is the position of the last Checkpoint entry
    of the log: an entry at that position is a Checkpoint and no Checkpoint
    lies behind it.  Without any Checkpoint it is 0, the same value as for a
    Checkpoint at position 0.  In both cases it is a position at or below
    the length of the log. *)
Theorem latest_checkpoint_lsn_spec (state : State) :
  let r := latest_checkpoint_lsn state in
  ((∀ e, e ∈ log state → Log.is_checkpoint e = false) → r = 0) ∧
  (∀ (k : nat) e, log state !! k = Some e → Log.is_checkpoint e = true →
                  Z.of_nat k <= r ∧
                  ∃ c, js_index (log state) r = Some c ∧
                       Log.is_checkpoint c = true) ∧
  0 <= r <= Z.of_nat (length (log state)).
Proof.
  unfold latest_checkpoint_lsn.
  destruct (latest_checkpoint_from_spec (log state) 0 0)
    as [[Hr Hnone] | (k & c & Hk & Hc & Hr & Hmax)]; cbv zeta; rewrite Hr.
  - split; [done |]. split; [| lia].
    intros k e Hk Hc. apply list_elem_of_lookup_2 in Hk.
    apply Hnone in Hk. congruence.
  - split; [| split].
    + intros Hnone. apply list_elem_of_lookup_2 in Hk.
      apply Hnone in Hk. congruence.
    + intros k' e' Hk' Hc'. split; [specialize (Hmax _ _ Hk' Hc'); lia |].
      exists c. split; [| done]. unfold js_index.
      rewrite decide_True by lia. by rewrite Z.add_0_l, Nat2Z.id.
    + apply lookup_lt_Some in Hk. lia.
Qed.

(** ** Pages: pin and flush *)



(** X4. [pin] only ever adds the disk copy of the one page it is asked for:
    a page already in the buffer pool keeps its buffer copy (which may be
    ahead of the disk), the disk and every other field are unchanged, and
    pinning a second time changes nothing. *)
Theorem pin_adds_disk_copy (state pinned : State) (page_id : string) :
  pin state page_id = Ok pinned →
  pinned = set_buffer_pool (buffer_pool pinned) state ∧
  (∀ q, q ≠ page_id → buffer_pool pinned !! q = buffer_pool state !! q) ∧
  buffer_pool pinned !! page_id =
    match buffer_pool state !! page_id with
    | Some p => Some p
    | None => disk state !! page_id
    end ∧
  pin pinned page_id = Ok pinned.
Proof.
  intros H. apply pin_inv in H as (d & Hd & ->).
  destruct (buffer_pool state !! page_id) as [p|] eqn:Hbp.
  - split; [by destruct state |]. split; [done |]. split; [done |].
    by rewrite (pin_present _ _ d Hd), Hbp.
  - split; [done |]. split; [| split].
    + intros q Hq. simpl. by rewrite lookup_insert_ne.
    + simpl. by rewrite lookup_insert_eq.
    + rewrite (pin_present _ _ d) by done. simpl. by rewrite lookup_insert_eq.
Qed.

Lemma pin_adds_disk_copy_witness :
  ∃ pinned, pin dirty_example "A" = Ok pinned ∧
            buffer_pool pinned !! "A" = Some (Page.mk (-1) "⊥") ∧
            pin pinned "A" = Ok pinned.
Proof.
  assert (H : pin dirty_example "A"
              = Ok (set_buffer_pool {["A" := Page.mk (-1) "⊥"]} dirty_example))
    by reflexivity.
  pose proof (pin_adds_disk_copy _ _ _ H) as (_ & _ & Hbp & Hagain).
  eexists. split; [exact H |]. split; [exact Hbp | exact Hagain].
Defined.




(** ** Forward processing, one operation at a time *)

Lemma txn_update_eq {A} (state : State) (txn_id : string) (st : TxnStatus)
  (l : Z) (k : State → result A) :
  set_txn_status (begin_txn state txn_id) txn_id st
    ≫= (λ s, set_last_lsn s txn_id l ≫= k)
  = k (set_txn_table
         (<[txn_id := TxnTableEntry.mk (Some st) (Some l)]> (txn_table state))
         state).
Proof.
  unfold begin_txn, set_txn_status, set_last_lsn.
  destruct (txn_table state !! txn_id) as [e|] eqn:Htxn; simpl.
  - rewrite Htxn. simpl. rewrite lookup_insert_eq. simpl.
    unfold_state. by rewrite insert_insert_eq.
  - rewrite lookup_insert_eq. simpl. rewrite lookup_insert_eq. simpl.
    unfold_state. by rewrite !insert_insert_eq.
Qed.

Lemma process_write_eq (state : State) (txn_id page_id value : string)
  (d : Page.t) :
  disk state !! page_id = Some d →
  process_write state txn_id page_id value =
    Ok (mkState (phase state) (ops state) (num_ops_processed state)
          (log state ++
             [Log.Update (log_length state) txn_id page_id
                (Page.value (default d (buffer_pool state !! page_id)))
                value (last_lsn state txn_id)])
          (num_flushed state) (log_position state)
          (<[txn_id := TxnTableEntry.mk (Some IN_PROGRESS)
                         (Some (log_length state))]> (txn_table state))
          (match dirty_page_table state !! page_id with
           | Some _ => dirty_page_table state
           | None => <[page_id := DirtyPageTableEntry.mk (log_length state)]>
                       (dirty_page_table state)
           end)
          (<[page_id := Page.mk (log_length state) value]> (buffer_pool state))
          (disk state)).
Proof.
  intros Hd. unfold process_write. rewrite (pin_present _ _ d Hd).
  assert (Hdisk : ∀ bp, is_Some (disk (set_buffer_pool bp state) !! page_id))
    by (intros bp; simpl; eauto).
  destruct (buffer_pool state !! page_id) as [p|] eqn:Hbp; simpl.
  - rewrite Hbp. simpl. unfold set_page. rewrite Hbp. simpl.
    rewrite dirty_present by apply Hdisk. simpl.
    destruct (dirty_page_table state !! page_id); simpl;
      by rewrite txn_update_eq.
  - rewrite lookup_insert_eq. simpl. unfold set_page. simpl.
    rewrite lookup_insert_eq. simpl.
    rewrite dirty_present by apply Hdisk. simpl.
    destruct (dirty_page_table state !! page_id); simpl;
      rewrite txn_update_eq; unfold_state; by rewrite insert_insert_eq.
Qed.





(** ** What forward processing keeps true *)

(** The shape every state of forward processing has: pages in memory are on
    disk, the dirty pages are the pages in the buffer pool, the durable
    count and the LSNs held in the tables point into the log, the LSN of an
    entry is its position, and a prev_lsn points to an earlier entry. *)
Record forward_inv (s : State) : Prop := mk_forward_inv {
  inv_bp_disk :
    ∀ p, is_Some (buffer_pool s !! p) → is_Some (disk s !! p);
  inv_dpt_bp :
    ∀ p, is_Some (dirty_page_table s !! p) ↔ is_Some (buffer_pool s !! p);
  inv_durable : 0 <= num_flushed s <= log_length s;
  inv_page_lsn :
    ∀ p q, buffer_pool s !! p = Some q →
           0 <= Page.page_lsn q < log_length s;
  inv_rec_lsn :
    ∀ p d, dirty_page_table s !! p = Some d →
           0 <= DirtyPageTableEntry.rec_lsn d < log_length s;
  inv_txn :
    ∀ t e, txn_table s !! t = Some e →
           TxnTableEntry.txn_status e = Some IN_PROGRESS ∧
           ∃ l, TxnTableEntry.last_lsn e = Some l ∧ 0 <= l < log_length s;
  inv_lsn :
    ∀ (i : nat) e, log s !! i = Some e → Log.lsn e = Z.of_nat i;
  inv_prev :
    ∀ (i : nat) lsn t p b a prev,
      log s !! i = Some (Log.Update lsn t p b a (Some prev)) →
      0 <= prev < Z.of_nat i;
  inv_no_clr : ∀ e, e ∈ log s → Log.is_clr e = false;
}.

Lemma forward_inv_init (ops : list Op.Operation) :
  forward_inv (init (new_State ops) ops).
Proof.
  pose proof (init_frame (new_State ops) ops) as Heq.
  split; rewrite Heq; unfold log_length; simpl; try done.
  - by intros p [? ?].
  - intros p. split; by intros [? ?].
  - by intros e ?%elem_of_nil.
Qed.

Lemma lookup_snoc_inv {A} (l : list A) (x : A) (i : nat) (y : A) :
  (l ++ [x]) !! i = Some y →
  l !! i = Some y ∨ (i = length l ∧ y = x).
Proof.
  intros H. destruct (decide (i < length l)%nat) as [Hlt | Hge].
  - left. by rewrite lookup_app_l in H.
  - right. rewrite lookup_app_r in H by lia.
    destruct (i - length l)%nat as [|n] eqn:Hn; simpl in H; [| done].
    injection H as <-. split; [lia | done].
Qed.

Lemma forward_inv_write (s : State) (txn_id page_id value : string)
  (d : Page.t) (s' : State) :
  forward_inv s → disk s !! page_id = Some d →
  process_write s txn_id page_id value = Ok s' → forward_inv s'.
Proof.
  intros [Hbd Hdb Hnf Hpl Hrl Htx Hlsn Hprev Hclr] Hd H.
  rewrite (process_write_eq _ _ _ _ d Hd) in H. injection H as <-.
  assert (Hlen : log_length s + 1
                 = Z.of_nat (length (log s ++
                      [Log.Update (log_length s) txn_id page_id
                         (Page.value (default d (buffer_pool s !! page_id)))
                         value (last_lsn s txn_id)]))).
  { rewrite length_app. unfold log_length. simpl. lia. }
  split; unfold log_length in *; simpl; rewrite <- ?Hlen.
  - intros p. rewrite lookup_insert. case_decide; [subst; eauto | apply Hbd].
  - intros p. rewrite lookup_insert.
    destruct (dirty_page_table s !! page_id) as [e|] eqn:He.
    + case_decide; [subst | apply Hdb]. rewrite He. split; eauto.
    + rewrite lookup_insert. case_decide; [split; eauto | apply Hdb].
  - lia.
  - intros p q. rewrite lookup_insert. case_decide.
    + intros [= <-]. simpl. lia.
    + intros Hq. apply Hpl in Hq. lia.
  - intros p e. destruct (dirty_page_table s !! page_id) as [e'|] eqn:He.
    + intros Hp. apply Hrl in Hp. lia.
    + rewrite lookup_insert. case_decide.
      * intros [= <-]. simpl. lia.
      * intros Hp. apply Hrl in Hp. lia.
  - intros t e. rewrite lookup_insert. case_decide.
    + intros [= <-]. simpl. split; [done |]. eexists. split; [done | lia].
    + intros Ht. apply Htx in Ht as [? (l & ? & ?)].
      split; [done |]. exists l. split; [done | lia].
  - intros i e [Hi | [-> ->]]%lookup_snoc_inv; [by apply Hlsn | done].
  - intros i lsn t p b a prev [Hi | [-> Heq]]%lookup_snoc_inv;
      [by eapply Hprev |].
    injection Heq as _ _ _ _ _ Hl. unfold last_lsn in Hl.
    destruct (txn_table s !! txn_id) as [e|] eqn:He; [| done]. simpl in Hl.
    apply Htx in He as [_ (l & Hl' & ?)]. rewrite <- Hl in Hl'.
    injection Hl' as ->. lia.
  - intros e [He | ->%list_elem_of_singleton]%elem_of_app; [by apply Hclr | done].
Qed.

Lemma forward_inv_commit (s : State) (txn_id : string) (s' : State) :
  forward_inv s → process_commit s txn_id = Ok s' → forward_inv s'.
Proof.
  intros [Hbd Hdb Hnf Hpl Hrl Htx Hlsn Hprev Hclr] H.
  unfold process_commit in H. injection H as <-.
  split; unfold log_length in *; simpl; rewrite ?length_app; simpl;
    try done.
  - lia.
  - intros p q Hq. apply Hpl in Hq. lia.
  - intros p d Hd. apply Hrl in Hd. lia.
  - intros t e. rewrite lookup_delete. case_decide; [done |].
    intros Ht. apply Htx in Ht as [? (l & ? & ?)].
    split; [done |]. exists l. split; [done | lia].
  - intros i e [[Hi | [-> ->]]%lookup_snoc_inv | [-> ->]]%lookup_snoc_inv;
      [by apply Hlsn | done |].
    simpl. rewrite length_app. simpl. lia.
  - intros i lsn t p b a prev
      [[Hi | [-> Heq]]%lookup_snoc_inv | [-> Heq]]%lookup_snoc_inv;
      [by eapply Hprev | done..].
  - intros e [[He | ->%list_elem_of_singleton]%elem_of_app
             | ->%list_elem_of_singleton]%elem_of_app;
      [by apply Hclr | done..].
Qed.

Lemma forward_inv_checkpoint (s s' : State) :
  forward_inv s → process_checkpoint s = Ok s' → forward_inv s'.
Proof.
  intros [Hbd Hdb Hnf Hpl Hrl Htx Hlsn Hprev Hclr] H.
  unfold process_checkpoint in H. injection H as <-.
  split; unfold log_length in *; simpl; rewrite ?length_app; simpl;
    try done.
  - lia.
  - intros p q Hq. apply Hpl in Hq. lia.
  - intros p d Hd. apply Hrl in Hd. lia.
  - intros t e Ht. apply Htx in Ht as [? (l & ? & ?)].
    split; [done |]. exists l. split; [done | lia].
  - intros i e [Hi | [-> ->]]%lookup_snoc_inv; [by apply Hlsn | done].
  - intros i lsn t p b a prev [Hi | [-> Heq]]%lookup_snoc_inv;
      [by eapply Hprev | done].
  - intros e [He | ->%list_elem_of_singleton]%elem_of_app;
      [by apply Hclr | done].
Qed.

Lemma process_flush_eq (s : State) (page_id : string) :
  forward_inv s →
  process_flush s page_id =
    Ok (match buffer_pool s !! page_id with
        | None => s
        | Some q =>
            mkState (phase s) (ops s) (num_ops_processed s) (log s)
              (Z.max (num_flushed s) (Page.page_lsn q + 1)) (log_position s)
              (txn_table s) (delete page_id (dirty_page_table s))
              (delete page_id (buffer_pool s)) (<[page_id := q]> (disk s))
        end).
Proof.
  intros Hinv. unfold process_flush, page_lsn.
  destruct (buffer_pool s !! page_id) as [q|] eqn:Hq; simpl.
  - unfold flush. simpl. rewrite Hq.
    rewrite bool_decide_eq_true_2; [done |].
    apply (inv_bp_disk s Hinv). by rewrite Hq.
  - rewrite bool_decide_eq_true_2; [done |].
    destruct (dirty_page_table s !! page_id) eqn:Hd; [| done].
    assert (His : is_Some (buffer_pool s !! page_id))
      by (apply (inv_dpt_bp s Hinv); by rewrite Hd).
    rewrite Hq in His. by destruct His.
Qed.

Lemma forward_inv_flush (s : State) (page_id : string) (s' : State) :
  forward_inv s → process_flush s page_id = Ok s' → forward_inv s'.
Proof.
  intros Hinv H. rewrite (process_flush_eq _ _ Hinv) in H. injection H as <-.
  destruct (buffer_pool s !! page_id) as [q|] eqn:Hq; [| done].
  destruct Hinv as [Hbd Hdb Hnf Hpl Hrl Htx Hlsn Hprev Hclr].
  split; unfold log_length in *; simpl; try done.
  - intros p. rewrite lookup_delete, lookup_insert.
    case_decide; [by intros [? ?] | apply Hbd].
  - intros p. rewrite !lookup_delete. case_decide; [done | apply Hdb].
  - apply Hpl in Hq. lia.
  - intros p r. rewrite lookup_delete. case_decide; [done | apply Hpl].
  - intros p r. rewrite lookup_delete. case_decide; [done | apply Hrl].
Qed.

Lemma forward_inv_op (s s' : State) (op : Op.Operation) :
  forward_inv s → process_op s op = Ok s' → forward_inv s'.
Proof.
  intros Hinv H. destruct op; simpl in H.
  - destruct (disk s !! page_id) as [d|] eqn:Hd.
    + by eapply forward_inv_write.
    + unfold process_write in H. by rewrite pin_absent in H.
  - by eapply forward_inv_commit.
  - by eapply forward_inv_flush.
  - by eapply forward_inv_checkpoint.
Qed.

Lemma process_op_disk (s s' : State) (op : Op.Operation) (p : string) :
  forward_inv s → process_op s op = Ok s' →
  is_Some (disk s !! p) → is_Some (disk s' !! p).
Proof.
  intros Hinv H Hp. destruct op; simpl in H.
  - destruct (disk s !! page_id) as [d|] eqn:Hd.
    + rewrite (process_write_eq _ _ _ _ d Hd) in H. by injection H as <-.
    + unfold process_write in H. by rewrite pin_absent in H.
  - unfold process_commit in H. by injection H as <-.
  - rewrite (process_flush_eq _ _ Hinv) in H. injection H as <-.
    destruct (buffer_pool s !! page_id); [| done]. simpl.
    rewrite lookup_insert. by case_decide.
  - unfold process_checkpoint in H. by injection H as <-.
Qed.

Lemma process_op_Ok (s : State) (op : Op.Operation) :
  forward_inv s →
  (∀ p, p ∈ pages_accessed [op] → is_Some (disk s !! p)) →
  ∃ s', process_op s op = Ok s'.
Proof.
  intros Hinv Hpages. destruct op; simpl.
  - destruct (Hpages page_id) as [d Hd]; [simpl; left |].
    rewrite (process_write_eq _ _ _ _ d Hd). by eexists.
  - by eexists.
  - rewrite (process_flush_eq _ _ Hinv). by eexists.
  - by eexists.
Qed.

Lemma forward_inv_num_ops (s : State) (n : Z) :
  forward_inv s → forward_inv (set_num_ops_processed n s).
Proof. by intros []. Qed.

Lemma pages_accessed_cons (op : Op.Operation) (ops : list Op.Operation)
  (p : string) :
  p ∈ pages_accessed (op :: ops) ↔
  p ∈ pages_accessed [op] ∨ p ∈ pages_accessed ops.
Proof.
  destruct op; simpl; rewrite ?elem_of_cons, ?elem_of_nil; tauto.
Qed.

Lemma forward_loop_Ok (ops : list Op.Operation) :
  ∀ (state : State) (states : list State),
    forward_inv state →
    (∀ p, p ∈ pages_accessed ops → is_Some (disk state !! p)) →
    Forall forward_inv states →
    ∃ states', forward_loop ops state states = Ok states' ∧
               length states' = (length states + length ops)%nat ∧
               Forall forward_inv states'.
Proof.
  induction ops as [|op ops IH]; intros state states Hinv Hpages Hall; simpl.
  { exists states. split; [done |]. split; [lia | done]. }
  destruct (process_op_Ok state op Hinv) as [s' Hs'].
  { intros p Hp. apply Hpages, pages_accessed_cons. by left. }
  rewrite Hs'. simpl.
  assert (Hinv' : forward_inv
                    (set_num_ops_processed (num_ops_processed s' + 1) s'))
    by (apply forward_inv_num_ops; by eapply forward_inv_op).
  destruct (IH (set_num_ops_processed (num_ops_processed s' + 1) s')
              (states ++ [set_num_ops_processed (num_ops_processed s' + 1) s'])
              Hinv') as (states' & H & Hlen & Hall').
  - intros p Hp. simpl. eapply process_op_disk; [exact Hinv | exact Hs' |].
    apply Hpages, pages_accessed_cons. by right.
  - apply Forall_app. split; [done |]. by constructor.
  - exists states'. split; [done |]. split; [| done].
    rewrite Hlen, length_app. simpl. lia.
Qed.

Lemma forward_process_Ok (ops : list Op.Operation) :
  ∃ fwd, forward_process [init (new_State ops) ops] ops = Ok fwd ∧
         length fwd = S (length ops) ∧ Forall forward_inv fwd.
Proof.
  unfold forward_process. simpl.
  destruct (forward_loop_Ok ops (init (new_State ops) ops)
              [init (new_State ops) ops]) as (fwd & H & Hlen & Hall).
  - apply forward_inv_init.
  - intros p Hp. destruct (init_fold (pages_accessed ops) (new_State ops))
      as [_ Hdisk]. unfold init. rewrite Hdisk. by rewrite decide_True.
  - constructor; [apply forward_inv_init | done].
  - exists fwd. by rewrite H.
Qed.


(** X10. In every state of that history the pages of the buffer pool are on
    disk, the dirty page table has exactly the pages of the buffer pool, the
    durable count is at most the length of the log, the page LSNs, recLSNs
    and last LSNs are positions of the log, every transaction of the table
    is in progress, the LSN of an entry is its position, the prev_lsn of an
    Update points to an earlier position, and the log has no CLR. *)
Theorem forward_states_well_formed (ops : list Op.Operation)
  (fwd : list State) (s : State) :
  forward_process [init (new_State ops) ops] ops = Ok fwd →
  s ∈ fwd → forward_inv s.
Proof.
  intros H Hs. destruct (forward_process_Ok ops) as (fwd' & H' & _ & Hall).
  rewrite H in H'. injection H' as <-.
  by apply (proj1 (Forall_forall _ _) Hall).
Qed.

Lemma forward_states_well_formed_witness :
  ∃ s, last (history_of (forward_process
                           [init (new_State chain_ops) chain_ops] chain_ops))
       = Some s ∧ forward_inv s.
Proof.
  assert (H : forward_process [init (new_State chain_ops) chain_ops] chain_ops
              = Ok (history_of
                      (forward_process [init (new_State chain_ops) chain_ops]
                         chain_ops))) by (vm_compute; reflexivity).
  destruct (last (history_of
                    (forward_process [init (new_State chain_ops) chain_ops]
                       chain_ops))) as [s|] eqn:Hlast;
    [| vm_compute in Hlast; discriminate].
  exists s. split; [reflexivity |].
  apply (forward_states_well_formed chain_ops _ s H).
  by apply last_Some_elem_of.
Defined.

(** ** Crash *)

(** X11. When the durable count lies between 0 and the length of the log, as
    it does in every state of forward processing, the crashed state's log
    has exactly durable-count entries and is a prefix of the old log, and
    crashing a second time changes nothing. *)
Theorem crash_truncates (state : State) :
  0 <= num_flushed state <= log_length state →
  log_length (crash state) = num_flushed state ∧
  log (crash state) `prefix_of` log state ∧
  crash (crash state) = crash state.
Proof.
  intros Hnf.
  assert (Hlog : log (crash state)
                 = take (Z.to_nat (num_flushed state)) (log state)).
  { unfold crash. unfold_state. unfold js_slice0.
    rewrite decide_True; [done | lia]. }
  split; [| split].
  - unfold log_length in *. rewrite Hlog, length_take. lia.
  - rewrite Hlog. apply prefix_take.
  - apply state_eq; try reflexivity.
    change (log (crash (crash state)))
      with (js_slice0 (log (crash state)) (num_flushed state)).
    rewrite Hlog. unfold js_slice0. rewrite decide_True by lia.
    rewrite take_take. f_equal. lia.
Qed.

Lemma crash_truncates_witness :
  log_length (crash crash_example) = 2 ∧
  crash (crash crash_example) = crash crash_example.
Proof.
  assert (H : 0 <= num_flushed crash_example <= log_length crash_example)
    by (vm_compute; split; discriminate).
  destruct (crash_truncates crash_example H) as (Hlen & _ & Hagain).
  split; [exact Hlen | exact Hagain].
Defined.

(** ** Analysis *)

Lemma latest_checkpoint_lsn_bounds (state : State) :
  0 <= latest_checkpoint_lsn state <= log_length state.
Proof.
  unfold latest_checkpoint_lsn, log_length.
  destruct (latest_checkpoint_from_spec (log state) 0 0)
    as [[Hr _] | (k & c & Hk & _ & Hr & _)]; cbv zeta in *; rewrite Hr.
  - lia.
  - apply lookup_lt_Some in Hk. lia.
Qed.

(** Analysis of one entry writes the two tables only. *)
Lemma analysis_entry_inv (state state' : State) (e : Log.Entry) :
  analysis_entry state e = Ok state' →
  state' = set_txn_table (txn_table state')
             (set_dirty_page_table (dirty_page_table state') state).
Proof.
  destruct state as [ph o n l nf lp tt dpt bp dk].
  destruct e; simpl;
    unfold analysis_update, analysis_commit, analysis_end, analysis_clr,
      analysis_checkpoint; intros H.
  - inv_bind H as s Hs. apply dirty_inv in Hs as [_ ->].
    apply set_last_lsn_inv in H as (e & _ & ->).
    unfold begin_txn. simpl. by repeat case_match.
  - inv_bind H as s Hs. apply set_txn_status_inv in Hs as (e & _ & ->).
    apply set_last_lsn_inv in H as (e' & _ & ->).
    unfold begin_txn. simpl. by repeat case_match.
  - by injection H as <-.
  - discriminate.
  - inv_bind H as u Hu. by injection H as <-.
Qed.

(** What Analysis leaves alone. *)
Definition analysis_frame (s x : State) : Prop :=
  ops x = ops s ∧ num_ops_processed x = num_ops_processed s ∧
  log x = log s ∧ num_flushed x = num_flushed s ∧
  buffer_pool x = buffer_pool s ∧ disk x = disk s.

Lemma analysis_entry_frame (state state' : State) (e : Log.Entry) :
  analysis_entry state e = Ok state' →
  analysis_frame state state' ∧ log_position state' = log_position state.
Proof.
  intros H. apply analysis_entry_inv in H.
  pose proof (f_equal ops H) as H1.
  pose proof (f_equal num_ops_processed H) as H2.
  pose proof (f_equal log H) as H3.
  pose proof (f_equal num_flushed H) as H4.
  pose proof (f_equal buffer_pool H) as H5.
  pose proof (f_equal disk H) as H6.
  pose proof (f_equal log_position H) as H7.
  by repeat split.
Qed.

Lemma analysis_loop_frame (entries : list Log.Entry) :
  ∀ (state : State) (states states' : list State) (state' : State),
    analysis_loop entries state states = Ok (states', state') →
    analysis_frame state state' ∧
    log_position state'
      = (λ p, p + Z.of_nat (length entries)) <$> log_position state.
Proof.
  induction entries as [|e entries IH]; intros state states states' state' H;
    simpl in H.
  - injection H as <- <-. split; [by repeat split |].
    destruct (log_position state); simpl; f_equal; lia.
  - inv_bind H as s Hs. apply analysis_entry_frame in Hs as [Hf Hp].
    apply IH in H as [Hf' Hp'].
    destruct Hf as (? & ? & ? & ? & ? & ?).
    destruct Hf' as (? & ? & ? & ? & ? & ?).
    split; [repeat split; simpl in *; congruence |].
    rewrite Hp'. change (log_position (advance s))
      with ((λ p, p + 1) <$> log_position s).
    rewrite Hp. destruct (log_position state); simpl; f_equal; lia.
Qed.

Lemma abort_in_progress_status (e : TxnTableEntry.t) :
  TxnTableEntry.txn_status (abort_in_progress e) ≠ Some IN_PROGRESS ∧
  TxnTableEntry.last_lsn (abort_in_progress e) = TxnTableEntry.last_lsn e ∧
  (TxnTableEntry.txn_status e ≠ Some IN_PROGRESS → abort_in_progress e = e).
Proof.
  unfold abort_in_progress. case_decide; simpl; [| done].
  repeat split; [done | congruence].
Qed.

(** X12. An Analysis that returns ends in phase Analysis with the scan
    position at the end of the log, having added one state per entry from
    the latest checkpoint on and one final state.  It leaves the log, the
    durable count, the buffer pool and the disk as they were, and no
    transaction of the final table is in progress. *)
Theorem analysis_scans_to_end (states states' : list State) (state : State) :
  last states = Some state → analysis states = Ok states' →
  ∃ final,
    last states' = Some final ∧
    final = mkState ANALYSIS (ops state) (num_ops_processed state) (log state)
              (num_flushed state) (Some (log_length state))
              (txn_table final) (dirty_page_table final)
              (buffer_pool state) (disk state) ∧
    (∀ t e, txn_table final !! t = Some e →
            TxnTableEntry.txn_status e ≠ Some IN_PROGRESS) ∧
    Z.of_nat (length states') =
      Z.of_nat (length states)
      + (log_length state - latest_checkpoint_lsn state) + 1.
Proof.
  intros Hlast H. unfold analysis in H. rewrite Hlast in H. simpl in H.
  inv_bind H as r Hr. destruct r as [sts st]. injection H as <-.
  pose proof (latest_checkpoint_lsn_bounds state) as Hb.
  pose proof Hr as Hloop.
  pose proof (analysis_loop_inv _ _ _ _ _ Hr) as (_ & k & -> & Hk).
  apply analysis_loop_frame in Hr as [(H1 & H2 & H3 & H4 & H5 & H6) Hpos].
  pose proof (analysis_loop_inv _ _ _ _ _ Hloop) as (Hph & _).
  eexists. split; [apply last_snoc |]. split; [| split].
  - simpl in *. apply state_eq; simpl; try done.
    rewrite Hpos. simpl. rewrite length_drop. unfold log_length in *.
    f_equal. lia.
  - intros t e. simpl. rewrite lookup_fmap.
    destruct (txn_table st !! t) as [e'|]; simpl; [| done].
    intros [= <-]. apply abort_in_progress_status.
  - rewrite !length_app, Hk, length_drop. unfold log_length in *. simpl. lia.
Qed.

Lemma analysis_scans_to_end_witness :
  ∃ final, last (history_of (analysis [clean_example])) = Some final ∧
           log_position final = Some 2 ∧ phase final = ANALYSIS.
Proof.
  assert (H : analysis [clean_example]
              = Ok (history_of (analysis [clean_example])))
    by (vm_compute; reflexivity).
  destruct (analysis_scans_to_end [clean_example] _ clean_example eq_refl H)
    as (final & Hlast & Hfinal & _).
  exists final. split; [exact Hlast |]. rewrite Hfinal. split; reflexivity.
Defined.

Lemma begin_set_last_lsn_eq (state : State) (txn_id : string) (l : Z) :
  set_last_lsn (begin_txn state txn_id) txn_id l =
    Ok (set_txn_table
          (<[txn_id := TxnTableEntry.mk
                         (txn_table state !! txn_id
                            ≫= TxnTableEntry.txn_status) (Some l)]>
             (txn_table state)) state).
Proof.
  unfold begin_txn, set_last_lsn.
  destruct (txn_table state !! txn_id) as [e|] eqn:He; simpl.
  - by rewrite He.
  - rewrite lookup_insert_eq. simpl. unfold_state.
    by rewrite insert_insert_eq.
Qed.

(** X13. Analysis of an Update entry sets the last LSN of its transaction
    and nothing else of it: a transaction that had no entry gets one without
    a status, a transaction that had one keeps its status.  An entry without
    a status is left as it is at the end of Analysis, where only the entries
    in progress become aborted. *)
Theorem analysis_update_status (state : State) (lsn : Z)
  (txn_id page_id before after : string) (prev_lsn : option Z) :
  is_Some (disk state !! page_id) →
  ∃ state',
    analysis_entry state
      (Log.Update lsn txn_id page_id before after prev_lsn) = Ok state' ∧
    txn_table state' =
      <[txn_id := TxnTableEntry.mk
                    (txn_table state !! txn_id ≫= TxnTableEntry.txn_status)
                    (Some lsn)]> (txn_table state) ∧
    (txn_table state !! txn_id = None →
       abort_in_progress <$> txn_table state' !! txn_id
         = Some (TxnTableEntry.mk None (Some lsn))).
Proof.
  intros Hdisk. simpl. unfold analysis_update.
  rewrite (dirty_present _ _ _ Hdisk). simpl.
  rewrite begin_set_last_lsn_eq. eexists. split; [reflexivity |].
  destruct (dirty_page_table state !! page_id); simpl;
    (split; [done |]); intros Hnone; rewrite Hnone; simpl;
    by rewrite lookup_insert_eq.
Qed.

Lemma analysis_update_status_witness :
  ∃ state',
    analysis_entry dirty_example (Log.Update 5 "9" "A" "a" "b" None)
      = Ok state' ∧
    txn_table state' = <["9" := TxnTableEntry.mk None (Some 5)]> ∅.
Proof.
  destruct (analysis_update_status dirty_example 5 "9" "A" "a" "b" None)
    as (state' & H & Htt & _); [by eexists |].
  exists state'. split; [exact H | exact Htt].
Defined.

(** ** Redo *)

(** What Redo may change of a state: the scan position and the buffer
    copies of pages that are in the dirty page table. *)
Definition redo_frame (s x : State) : Prop :=
  x = set_log_position (log_position x) (set_buffer_pool (buffer_pool x) s) ∧
  ∀ p, dirty_page_table s !! p = None →
       buffer_pool x !! p = buffer_pool s !! p.

Lemma redo_frame_refl (s : State) : redo_frame s s.
Proof. split; [by destruct s | done]. Qed.

Lemma redo_frame_trans (s1 s2 s3 : State) :
  redo_frame s1 s2 → redo_frame s2 s3 → redo_frame s1 s3.
Proof.
  intros [H12 Hp12] [H23 Hp23]. split.
  - rewrite H23 at 1. rewrite H12 at 1. reflexivity.
  - intros p Hp. rewrite Hp23, Hp12; [done.. |].
    rewrite H12. exact Hp.
Qed.

Lemma redo_entry_frame (state state' : State) (e : Log.Entry) :
  redo_entry state e = Ok state' → redo_frame state state'.
Proof.
  destruct e; simpl; try (intros [= <-]; apply redo_frame_refl).
  rewrite redo_update_eq. unfold redo_update_skips.
  destruct (dirty_page_table state !! page_id) as [d|] eqn:Hd.
  - destruct (decide (DirtyPageTableEntry.rec_lsn d > lsn)).
    { intros [= <-]. apply redo_frame_refl. }
    destruct (disk state !! page_id) as [q|]; simpl; [| discriminate].
    case_bool_decide.
    { intros [= <-]. apply redo_frame_refl. }
    intros [= <-]. split; [done |]. intros p Hp. simpl.
    apply lookup_insert_ne. congruence.
  - intros [= <-]. apply redo_frame_refl.
Qed.

Lemma advance_frame (s : State) : redo_frame s (advance s).
Proof. split; [done | done]. Qed.

Lemma redo_loop_frame (entries : list Log.Entry) :
  ∀ (state : State) (states states' : list State) (state' : State),
    redo_loop entries state states = Ok (states', state') →
    ∃ added, states' = states ++ added ∧
             length added = length entries ∧
             Forall (redo_frame state) added.
Proof.
  induction entries as [|e entries IH]; intros state states states' state' H;
    simpl in H.
  - injection H as <- <-. exists []. by rewrite app_nil_r.
  - inv_bind H as s Hs. apply redo_entry_frame in Hs.
    assert (Hadv : redo_frame state (advance s))
      by (eapply redo_frame_trans; [exact Hs | apply advance_frame]).
    apply IH in H as (added & -> & Hlen & Hall).
    exists (advance s :: added). rewrite <- app_assoc.
    split; [done |]. split; [simpl; lia |].
    constructor; [done |].
    eapply Forall_impl; [exact Hall |]. intros x Hx.
    by eapply redo_frame_trans.
Qed.

(** X14. Redo writes the buffer pool only: every state a Redo adds to the
    history is in phase Redo and has the operations, the log, the durable
    count, the transaction table, the dirty page table and the disk of the
    state Redo started from, and the buffer copies of the pages that are
    not in the dirty page table. *)
Theorem redo_writes_buffer_pool_only (states states' : list State)
  (state : State) :
  last states = Some state → redo states = Ok states' →
  ∃ added,
    states' = states ++ added ∧
    ∀ x, x ∈ added →
      x = mkState REDO (ops state) (num_ops_processed state) (log state)
            (num_flushed state) (log_position x) (txn_table state)
            (dirty_page_table state) (buffer_pool x) (disk state) ∧
      ∀ p, dirty_page_table state !! p = None →
           buffer_pool x !! p = buffer_pool state !! p.
Proof.
  intros Hlast H. apply redo_Ok in H as [st H].
  apply redo_run_inv in H
    as (state0 & Hlast0 & [(_ & -> & _) | (m & _ & _ & Hloop)]).
  { exists []. split; [by rewrite app_nil_r |]. by intros x ?%elem_of_nil. }
  assert (state0 = state) as -> by congruence.
  apply redo_loop_frame in Hloop as (added & -> & _ & Hall).
  exists added. split; [done |]. intros x Hx.
  apply (proj1 (Forall_forall _ _) Hall) in Hx as [Hx Hp].
  split; [| exact Hp]. rewrite Hx at 1. reflexivity.
Qed.

Lemma redo_writes_buffer_pool_only_witness :
  ∃ added,
    history_of (redo [dirty_example]) = [dirty_example] ++ added ∧
    ∀ x, x ∈ added → disk x = disk dirty_example.
Proof.
  assert (H : redo [dirty_example] = Ok (history_of (redo [dirty_example])))
    by (vm_compute; reflexivity).
  destruct (redo_writes_buffer_pool_only [dirty_example] _ dirty_example
              eq_refl H) as (added & Heq & Hall).
  exists added. split; [exact Heq |]. intros x Hx.
  destruct (Hall x Hx) as [-> _]. reflexivity.
Defined.

(** ** Undo *)

Definition entry_txn_id (e : Log.Entry) : option string :=
  match e with
  | Log.Update _ t _ _ _ _ | Log.Commit _ t _ | Log.End_ _ t _
  | Log.CLR _ t _ _ _ _ => Some t
  | Log.Checkpoint _ _ _ => None
  end.

Definition entry_page_id (e : Log.Entry) : option string :=
  match e with
  | Log.Update _ _ p _ _ _ | Log.CLR _ _ p _ _ _ => Some p
  | _ => None
  end.

Definition entry_prev_lsn (e : Log.Entry) : option Z :=
  match e with
  | Log.Update _ _ _ _ _ p | Log.Commit _ _ p | Log.End_ _ _ p
  | Log.CLR _ _ _ _ _ p => p
  | Log.Checkpoint _ _ _ => None
  end.

(** One iteration of the loop of Undo, as an equation. *)
Lemma undo_step_eq (state : State) (losers : list (option Z)) (loser lsn : Z)
  (txn_id page_id before after : string) (prev_lsn : option Z)
  (d : Page.t) (e : TxnTableEntry.t) :
  mjoin (last (js_sort losers)) = Some loser →
  js_index (log state) loser
    = Some (Log.Update lsn txn_id page_id before after prev_lsn) →
  disk state !! page_id = Some d →
  txn_table state !! txn_id = Some e →
  let clr_lsn := log_length state in
  let clr := Log.CLR clr_lsn txn_id page_id (js_of_number prev_lsn)
               (JString before) (TxnTableEntry.last_lsn e) in
  undo_step state losers =
    Ok (mkState (phase state) (ops state) (num_ops_processed state)
          (log state ++ clr ::
             match prev_lsn with
             | Some _ => []
             | None => [Log.End_ (clr_lsn + 1) txn_id (Some clr_lsn)]
             end)
          (num_flushed state) (Some lsn)
          (match prev_lsn with
           | Some _ =>
               <[txn_id := TxnTableEntry.mk (TxnTableEntry.txn_status e)
                             (Some clr_lsn)]> (txn_table state)
           | None => delete txn_id (txn_table state)
           end)
          (dirty_page_table state)
          (<[page_id := Page.mk clr_lsn before]> (buffer_pool state))
          (disk state),
        removelast (js_sort losers) ++
          match prev_lsn with
          | Some n => [Some n]
          | None => []
          end).
Proof.
  intros Hloser Hentry Hd He clr_lsn clr. unfold undo_step.
  rewrite Hloser. simpl. rewrite Hentry. simpl.
  unfold last_lsn. rewrite He. simpl. fold clr_lsn. fold clr.
  rewrite (pin_present (log_push clr state) page_id d Hd).
  change (buffer_pool (log_push clr state)) with (buffer_pool state).
  destruct (buffer_pool state !! page_id) as [q|] eqn:Hq.
  - simpl. unfold set_page. simpl. rewrite Hq. simpl.
    unfold set_last_lsn. simpl. rewrite He. simpl.
    destruct prev_lsn; unfold_state; rewrite ?length_app; simpl.
    + done.
    + rewrite delete_insert_eq, <- app_assoc, app_nil_r. simpl.
      by replace (Z.of_nat (length (log state) + 1)) with (clr_lsn + 1)
        by (unfold clr_lsn, log_length; lia).
  - simpl. unfold set_page. simpl. rewrite lookup_insert_eq. simpl.
    unfold set_last_lsn. simpl. rewrite He. simpl.
    destruct prev_lsn; unfold_state; rewrite ?length_app; simpl;
      rewrite insert_insert_eq.
    + done.
    + rewrite delete_insert_eq, <- app_assoc, app_nil_r. simpl.
      by replace (Z.of_nat (length (log state) + 1)) with (clr_lsn + 1)
        by (unfold clr_lsn, log_length; lia).
Qed.

(** X15. One iteration of the loop of Undo, when the largest loser in the
    order of the sort is the position of an Update of transaction T on page
    P, P is on disk and T has an entry in the transaction table: a CLR for T
    and P is appended at the old end of the log, with T's last LSN as
    prev_lsn; the buffer copy of P becomes the before-image of the Update at
    the CLR's LSN; the scan position is the LSN of the Update.  When the
    Update has a prev_lsn, T's last LSN becomes the CLR's LSN and the
    prev_lsn joins the other losers; when it has none, an End entry follows
    the CLR and T leaves the transaction table.  The durable count, the
    dirty page table and the disk are unchanged. *)
Theorem undo_step_effect (state : State) (losers : list (option Z))
  (loser lsn : Z) (txn_id page_id before after : string)
  (prev_lsn : option Z) (d : Page.t) (e : TxnTableEntry.t) :
  mjoin (last (js_sort losers)) = Some loser →
  js_index (log state) loser
    = Some (Log.Update lsn txn_id page_id before after prev_lsn) →
  disk state !! page_id = Some d →
  txn_table state !! txn_id = Some e →
  ∃ state' clr,
    undo_step state losers =
      Ok (state',
          removelast (js_sort losers) ++
            match prev_lsn with Some n => [Some n] | None => [] end) ∧
    Log.is_clr clr = true ∧ Log.lsn clr = log_length state ∧
    entry_txn_id clr = Some txn_id ∧ entry_page_id clr = Some page_id ∧
    entry_prev_lsn clr = TxnTableEntry.last_lsn e ∧
    log state' =
      log state ++ clr ::
        match prev_lsn with
        | Some _ => []
        | None => [Log.End_ (log_length state + 1) txn_id
                     (Some (log_length state))]
        end ∧
    buffer_pool state' =
      <[page_id := Page.mk (log_length state) before]> (buffer_pool state) ∧
    txn_table state' =
      match prev_lsn with
      | Some _ =>
          <[txn_id := TxnTableEntry.mk (TxnTableEntry.txn_status e)
                        (Some (log_length state))]> (txn_table state)
      | None => delete txn_id (txn_table state)
      end ∧
    log_position state' = Some lsn ∧
    num_flushed state' = num_flushed state ∧
    dirty_page_table state' = dirty_page_table state ∧
    disk state' = disk state ∧ phase state' = phase state.
Proof.
  intros Hloser Hentry Hd He.
  rewrite (undo_step_eq _ _ _ _ _ _ _ _ _ _ _ Hloser Hentry Hd He).
  eexists. eexists. split; [reflexivity |]. by repeat split.
Qed.

Lemma undo_step_effect_witness :
  ∃ state',
    undo_step
      (set_txn_table {["1" := TxnTableEntry.mk None (Some 0)]} dirty_example)
      [Some 0] = Ok (state', []) ∧
    buffer_pool state' = <["A" := Page.mk 3 "⊥"]> ∅ ∧
    txn_table state' = delete "1" {["1" := TxnTableEntry.mk None (Some 0)]}.
Proof.
  destruct (undo_step_effect
              (set_txn_table {["1" := TxnTableEntry.mk None (Some 0)]}
                 dirty_example)
              [Some 0] 0 0 "1" "A" "⊥" "x" None (Page.mk (-1) "⊥")
              (TxnTableEntry.mk None (Some 0)))
    as (state' & clr & H & _ & _ & _ & _ & _ & _ & Hbp & Htt & _);
    [reflexivity.. |].
  exists state'. split; [exact H |]. split; [exact Hbp | exact Htt].
Defined.

(** X16. The loop of Undo does not depend on the order of the loser LSNs it
    is given: two arrays with the same elements give the same result, the
    array being sorted before every read. *)
Theorem undo_order_irrelevant (fuel : nat) (state : State)
  (losers1 losers2 : list (option Z)) (states : list State) :
  losers1 ≡ₚ losers2 →
  undo_loop fuel state losers1 states = undo_loop fuel state losers2 states.
Proof.
  intros Hperm.
  destruct losers1 as [|x1 l1], losers2 as [|x2 l2].
  - done.
  - by apply Permutation_nil_l in Hperm.
  - by apply Permutation_nil_r in Hperm.
  - destruct fuel as [|fuel]; [done |]. simpl.
    by rewrite (undo_step_order_irrelevant state (x1 :: l1) (x2 :: l2)).
Qed.

Lemma undo_order_irrelevant_witness :
  undo_loop 5 clr_example [Some 0; Some 2] [] =
  undo_loop 5 clr_example [Some 2; Some 0] [].
Proof.
  apply (undo_order_irrelevant 5 clr_example [Some 0; Some 2] [Some 2; Some 0]).
  apply Permutation_swap.
Defined.

(** *** Termination of the loop of Undo *)















(** ** Recovery never fails *)

(** [q] is the position of an Update of transaction [t]. *)
Definition points_to (l : list Log.Entry) (t : string) (q : Z) : Prop :=
  0 <= q ∧
  ∃ lsn p b a prev, l !! Z.to_nat q = Some (Log.Update lsn t p b a prev).

Definition is_commit (e : Log.Entry) : bool :=
  match e with Log.Commit _ _ _ => true | _ => false end.

(** A log that recovery can work on, given the disk: an Update carries its
    position as LSN, is on a page of the disk and has as prev_lsn an earlier
    Update of its transaction; there is no CLR; the tables held by a
    Checkpoint have recLSNs that are not negative and last LSNs that are
    earlier Updates of their transactions. *)
Record log_ok (dk : Disk) (l : list Log.Entry) : Prop := mk_log_ok {
  lok_update :
    ∀ (i : nat) lsn t p b a prev,
      l !! i = Some (Log.Update lsn t p b a prev) →
      lsn = Z.of_nat i ∧ is_Some (dk !! p) ∧
      ∀ q, prev = Some q → q < Z.of_nat i ∧ points_to l t q;
  lok_no_clr : ∀ e, e ∈ l → Log.is_clr e = false;
  lok_checkpoint :
    ∀ (i : nat) lsn dpt txns,
      l !! i = Some (Log.Checkpoint lsn dpt txns) →
      (∀ p d, dpt !! p = Some d → 0 <= DirtyPageTableEntry.rec_lsn d) ∧
      (∀ t e, txns !! t = Some e →
              ∃ q, TxnTableEntry.last_lsn e = Some q ∧
                   q < Z.of_nat i ∧ points_to l t q);
}.

(** Every Commit entry is followed by the End entry of its transaction. *)
Definition paired (l : list Log.Entry) : Prop :=
  ∀ (i : nat) lsn t prev,
    l !! i = Some (Log.Commit lsn t prev) →
    ∃ lsn' prev', l !! S i = Some (Log.End_ lsn' t prev').

Lemma points_to_app (l k : list Log.Entry) (t : string) (q : Z) :
  points_to l t q → points_to (l ++ k) t q.
Proof.
  intros [Hq (lsn & p & b & a & prev & H)]. split; [done |].
  exists lsn, p, b, a, prev. rewrite lookup_app_l; [done |].
  by apply lookup_lt_Some in H.
Qed.

Lemma points_to_take (l : list Log.Entry) (n : nat) (t : string) (q : Z) :
  points_to l t q → q < Z.of_nat n → points_to (take n l) t q.
Proof.
  intros [Hq (lsn & p & b & a & prev & H)] Hlt. split; [done |].
  exists lsn, p, b, a, prev. rewrite lookup_take_lt; [done | lia].
Qed.

Lemma points_to_lt (l : list Log.Entry) (t : string) (q : Z) :
  points_to l t q → q < Z.of_nat (length l).
Proof.
  intros [Hq (lsn & p & b & a & prev & H)]. apply lookup_lt_Some in H. lia.
Qed.

Lemma log_ok_take (dk : Disk) (l : list Log.Entry) (n : nat) :
  log_ok dk l → log_ok dk (take n l).
Proof.
  intros [Hu Hc Hk]. split.
  - intros i lsn t p b a prev Hi.
    apply lookup_take_Some in Hi as [Hi Hlt].
    destruct (Hu _ _ _ _ _ _ _ Hi) as (Hlsn & Hp & Hprev).
    split; [done | split; [done |]]. intros q Hq.
    destruct (Hprev q Hq) as [Hlt' Hpt]. split; [done |].
    apply points_to_take; [done | lia].
  - intros e He. apply Hc.
    apply list_elem_of_lookup in He as [i Hi].
    apply lookup_take_Some in Hi as [Hi _]. by eapply list_elem_of_lookup_2.
  - intros i lsn dpt txns Hi.
    apply lookup_take_Some in Hi as [Hi Hlt].
    destruct (Hk _ _ _ _ Hi) as [Hd Ht]. split; [done |].
    intros t e He. destruct (Ht t e He) as (q & Hq & Hlt' & Hpt).
    exists q. split; [done | split; [done |]]. apply points_to_take; [done | lia].
Qed.

Lemma log_ok_disk (dk dk' : Disk) (l : list Log.Entry) :
  (∀ p, is_Some (dk !! p) → is_Some (dk' !! p)) →
  log_ok dk l → log_ok dk' l.
Proof.
  intros Hsub [Hu Hc Hk]. split; [| done..].
  intros i lsn t p b a prev Hi.
  destruct (Hu _ _ _ _ _ _ _ Hi) as (Hlsn & Hp & Hprev). eauto.
Qed.

(** Appending an entry that is fine with respect to the log before it. *)
Lemma log_ok_snoc (dk : Disk) (l : list Log.Entry) (e : Log.Entry) :
  log_ok dk l →
  Log.is_clr e = false →
  (∀ lsn t p b a prev,
     e = Log.Update lsn t p b a prev →
     lsn = Z.of_nat (length l) ∧ is_Some (dk !! p) ∧
     ∀ q, prev = Some q → points_to l t q) →
  (∀ lsn dpt txns,
     e = Log.Checkpoint lsn dpt txns →
     (∀ p d, dpt !! p = Some d → 0 <= DirtyPageTableEntry.rec_lsn d) ∧
     (∀ t x, txns !! t = Some x →
             ∃ q, TxnTableEntry.last_lsn x = Some q ∧ points_to l t q)) →
  log_ok dk (l ++ [e]).
Proof.
  intros [Hu Hc Hk] Hclr Hupd Hchk. split.
  - intros i lsn t p b a prev [Hi | [-> <-]]%lookup_snoc_inv.
    + destruct (Hu _ _ _ _ _ _ _ Hi) as (Hlsn & Hp & Hprev).
      split; [done | split; [done |]]. intros q Hq.
      destruct (Hprev q Hq) as [Hlt Hpt]. split; [done |].
      by apply points_to_app.
    + destruct (Hupd _ _ _ _ _ _ eq_refl) as (Hlsn & Hp & Hprev).
      split; [done | split; [done |]]. intros q Hq. specialize (Hprev q Hq).
      split; [by apply points_to_lt in Hprev | by apply points_to_app].
  - intros x [Hx | ->%list_elem_of_singleton]%elem_of_app; eauto.
  - intros i lsn dpt txns [Hi | [-> <-]]%lookup_snoc_inv.
    + destruct (Hk _ _ _ _ Hi) as [Hd Ht]. split; [done |].
      intros t x Hx. destruct (Ht t x Hx) as (q & Hq & Hlt & Hpt).
      exists q. split; [done | split; [done |]]. by apply points_to_app.
    + destruct (Hchk _ _ _ eq_refl) as [Hd Ht]. split; [done |].
      intros t x Hx. destruct (Ht t x Hx) as (q & Hq & Hpt).
      exists q. split; [done |].
      split; [by apply points_to_lt in Hpt | by apply points_to_app].
Qed.

(** What forward processing keeps true for recovery, besides
    [forward_inv]: the log is fine for the disk, every Commit has its End,
    the durable log does not end with a Commit, and the last LSNs and page
    LSNs are positions of Updates. *)
Record recoverable (s : State) : Prop := mk_recoverable {
  rec_log : log_ok (disk s) (log s);
  rec_paired : paired (log s);
  rec_boundary :
    ∀ (i : nat) e,
      Z.of_nat (S i) = num_flushed s → log s !! i = Some e →
      is_commit e = false;
  rec_txn :
    ∀ t e, txn_table s !! t = Some e →
           ∃ q, TxnTableEntry.last_lsn e = Some q ∧ points_to (log s) t q;
  rec_page :
    ∀ p pg, buffer_pool s !! p = Some pg →
            ∃ t, points_to (log s) t (Page.page_lsn pg);
}.

Lemma points_to_snoc (l : list Log.Entry) lsn t p b a prev :
  points_to (l ++ [Log.Update lsn t p b a prev]) t (Z.of_nat (length l)).
Proof.
  split; [lia |]. exists lsn, p, b, a, prev.
  rewrite Nat2Z.id. by rewrite list_lookup_middle.
Qed.

Lemma paired_snoc (l : list Log.Entry) (e : Log.Entry) :
  paired l → is_commit e = false → paired (l ++ [e]).
Proof.
  intros Hp He i lsn t prev [Hi | [-> <-]]%lookup_snoc_inv; [| done].
  destruct (Hp _ _ _ _ Hi) as (lsn' & prev' & H).
  exists lsn', prev'. rewrite lookup_app_l; [done |].
  by apply lookup_lt_Some in H.
Qed.

Lemma recoverable_init (ops : list Op.Operation) :
  recoverable (init (new_State ops) ops).
Proof.
  pose proof (init_frame (new_State ops) ops) as Heq.
  split; rewrite Heq; simpl; try done.
  split; [done | by intros e ?%elem_of_nil | done].
Qed.

Lemma recoverable_write (s : State) (txn_id page_id value : string)
  (d : Page.t) (s' : State) :
  forward_inv s → recoverable s → disk s !! page_id = Some d →
  process_write s txn_id page_id value = Ok s' → recoverable s'.
Proof.
  intros Hinv [Hlog Hpair Hbound Htxn Hpage] Hd H.
  rewrite (process_write_eq _ _ _ _ d Hd) in H. injection H as <-.
  pose proof (inv_durable s Hinv) as Hnf. unfold log_length in *.
  split; simpl.
  - apply log_ok_snoc; [done.. | |]; [| done].
    intros lsn t p b a prev [= <- <- <- <- <- <-].
    split; [done |]. split; [eauto |].
    intros q Hq. unfold last_lsn in Hq.
    destruct (txn_table s !! txn_id) as [e|] eqn:He; [| done].
    destruct (Htxn _ _ He) as (q' & Hq' & Hpt). simpl in Hq.
    by assert (q = q') as -> by congruence.
  - by apply paired_snoc.
  - intros i e Hi He. rewrite lookup_app_l in He by lia. by eapply Hbound.
  - intros t e. rewrite lookup_insert. case_decide.
    + intros [= <-]. subst t. eexists. split; [done |]. apply points_to_snoc.
    + intros He. destruct (Htxn _ _ He) as (q & Hq & Hpt).
      exists q. split; [done |]. by apply points_to_app.
  - intros p pg. rewrite lookup_insert. case_decide.
    + intros [= <-]. exists txn_id. apply points_to_snoc.
    + intros Hp. destruct (Hpage _ _ Hp) as [t Hpt].
      exists t. by apply points_to_app.
Qed.

Lemma recoverable_commit (s : State) (txn_id : string) (s' : State) :
  forward_inv s → recoverable s →
  process_commit s txn_id = Ok s' → recoverable s'.
Proof.
  intros Hinv [Hlog Hpair Hbound Htxn Hpage] H.
  unfold process_commit in H. injection H as <-.
  pose proof (inv_durable s Hinv) as Hnf. unfold log_length in *.
  split; simpl.
  - apply log_ok_snoc; [apply log_ok_snoc | ..]; done.
  - intros i lsn t prev
      [[Hi | [-> Heq]]%lookup_snoc_inv | [-> Heq]]%lookup_snoc_inv;
      [| | done].
    + destruct (Hpair _ _ _ _ Hi) as (lsn' & prev' & H).
      exists lsn', prev'. rewrite <- app_assoc, lookup_app_l; [done |].
      by apply lookup_lt_Some in H.
    + injection Heq as _ -> _. eexists _, _.
      rewrite <- app_assoc.
      rewrite lookup_app_r by lia.
      by replace (S (length (log s)) - length (log s))%nat with 1%nat by lia.
  - intros i e Hi He.
    assert (i = S (length (log s))) as -> by lia.
    rewrite lookup_app_r in He by (rewrite length_app; simpl; lia).
    rewrite length_app in He. simpl in He.
    replace (S (length (log s)) - (length (log s) + 1))%nat with 0%nat in He
      by lia.
    by injection He as <-.
  - intros t e. rewrite lookup_delete. case_decide; [done |].
    intros He. destruct (Htxn _ _ He) as (q & Hq & Hpt).
    exists q. split; [done |]. by do 2 apply points_to_app.
  - intros p pg Hp. destruct (Hpage _ _ Hp) as [t Hpt].
    exists t. by do 2 apply points_to_app.
Qed.

Lemma recoverable_checkpoint (s s' : State) :
  forward_inv s → recoverable s →
  process_checkpoint s = Ok s' → recoverable s'.
Proof.
  intros Hinv [Hlog Hpair Hbound Htxn Hpage] H.
  unfold process_checkpoint in H. injection H as <-.
  pose proof (inv_durable s Hinv) as Hnf. unfold log_length in *.
  split; simpl.
  - apply log_ok_snoc; [done.. |].
    intros lsn dpt txns Heq. injection Heq; intros; subst.
    split; [| done].
    intros p d Hp. apply (inv_rec_lsn s Hinv) in Hp. lia.
  - by apply paired_snoc.
  - intros i e Hi He. rewrite lookup_app_l in He by lia. by eapply Hbound.
  - intros t e He. destruct (Htxn _ _ He) as (q & Hq & Hpt).
    exists q. split; [done |]. by apply points_to_app.
  - intros p pg Hp. destruct (Hpage _ _ Hp) as [t Hpt].
    exists t. by apply points_to_app.
Qed.

Lemma recoverable_flush (s : State) (page_id : string) (s' : State) :
  forward_inv s → recoverable s →
  process_flush s page_id = Ok s' → recoverable s'.
Proof.
  intros Hinv Hrec H. rewrite (process_flush_eq _ _ Hinv) in H.
  injection H as <-.
  destruct (buffer_pool s !! page_id) as [pg|] eqn:Hpg; [| done].
  destruct Hrec as [Hlog Hpair Hbound Htxn Hpage].
  split; simpl; try done.
  - eapply log_ok_disk; [| exact Hlog].
    intros p. rewrite lookup_insert. by case_decide.
  - intros i e Hi He.
    destruct (Z.max_spec (num_flushed s) (Page.page_lsn pg + 1))
      as [[_ Hmax] | [_ Hmax]]; rewrite Hmax in Hi.
    + destruct (Hpage _ _ Hpg) as (t & _ & lsn & p & b & a & prev & Hl).
      replace (Z.to_nat (Page.page_lsn pg)) with i in Hl by lia.
      rewrite He in Hl. by injection Hl as ->.
    + by eapply Hbound.
  - intros p q. rewrite lookup_delete. case_decide; [done | apply Hpage].
Qed.

Lemma recoverable_op (s s' : State) (op : Op.Operation) :
  forward_inv s → recoverable s → process_op s op = Ok s' → recoverable s'.
Proof.
  intros Hinv Hrec H. destruct op; simpl in H.
  - destruct (disk s !! page_id) as [d|] eqn:Hd.
    + by eapply recoverable_write.
    + unfold process_write in H. by rewrite pin_absent in H.
  - by eapply recoverable_commit.
  - by eapply recoverable_flush.
  - by eapply recoverable_checkpoint.
Qed.

Lemma forward_loop_last (ops : list Op.Operation) :
  ∀ (state : State) (states states' : list State),
    forward_loop ops state states = Ok states' →
    last states = Some state →
    forward_inv state → recoverable state → Forall recoverable states →
    ∃ final, last states' = Some final ∧
             forward_inv final ∧ recoverable final ∧
             Forall recoverable states'.
Proof.
  induction ops as [|op ops IH];
    intros state states states' H Hlast Hinv Hrec Hall; simpl in H.
  - injection H as <-. eauto.
  - inv_bind H as s Hs.
    assert (Hrec' : recoverable
                      (set_num_ops_processed (num_ops_processed s + 1) s)).
    { pose proof (recoverable_op _ _ _ Hinv Hrec Hs) as []. by split. }
    apply IH in H; [done | apply last_snoc | | done |].
    + apply forward_inv_num_ops. by eapply forward_inv_op.
    + apply Forall_app. split; [done |]. by constructor.
Qed.

Lemma crash_recoverable (s : State) :
  forward_inv s → recoverable s →
  log_ok (disk (crash s)) (log (crash s)) ∧ paired (log (crash s)) ∧
  txn_table (crash s) = ∅ ∧ dirty_page_table (crash s) = ∅ ∧
  buffer_pool (crash s) = ∅.
Proof.
  intros Hinv [Hlog Hpair Hbound Htxn Hpage].
  pose proof (inv_durable s Hinv) as Hnf.
  assert (Hcrash : log (crash s) = take (Z.to_nat (num_flushed s)) (log s)).
  { unfold crash. unfold_state. unfold js_slice0.
    rewrite decide_True; [done | lia]. }
  rewrite Hcrash. split; [by apply log_ok_take |]. split; [| done].
  intros i lsn t prev Hi. apply lookup_take_Some in Hi as [Hi Hlt].
  destruct (Hpair _ _ _ _ Hi) as (lsn' & prev' & H).
  exists lsn', prev'. rewrite lookup_take_lt; [done |].
  destruct (decide (S i = Z.to_nat (num_flushed s))) as [Heq | Hne]; [| lia].
  assert (Hc : is_commit (Log.Commit lsn t prev) = false)
    by (eapply Hbound; [| exact Hi]; lia).
  done.
Qed.

(** X18. In every state of the history of forward processing the log is
    chained: an Update is on a page of the disk and its prev_lsn is the
    position of an earlier Update of the same transaction; every Commit is
    directly followed by the End of its transaction, and the durable part of
    the log does not end with a Commit; the last LSNs of the transaction
    table and the page LSNs of the buffer pool are positions of Updates.  A
    crash in any of these states leaves a log that is chained in the same
    way, in which every Commit still has its End. *)
Theorem forward_log_chained (ops : list Op.Operation)
  (fwd : list State) (s : State) :
  forward_process [init (new_State ops) ops] ops = Ok fwd →
  s ∈ fwd →
  recoverable s ∧
  log_ok (disk (crash s)) (log (crash s)) ∧ paired (log (crash s)).
Proof.
  intros H Hs.
  destruct (forward_process_Ok ops) as (fwd' & H' & _ & Hall).
  rewrite H in H'. injection H' as <-.
  unfold forward_process in H. simpl in H.
  destruct (forward_loop_last ops _ _ _ H eq_refl
              (forward_inv_init ops) (recoverable_init ops))
    as (_ & _ & _ & _ & Hrec).
  { constructor; [apply recoverable_init | done]. }
  pose proof (proj1 (Forall_forall _ _) Hall s Hs) as Hinv.
  pose proof (proj1 (Forall_forall _ _) Hrec s Hs) as Hr.
  split; [done |].
  destruct (crash_recoverable s Hinv Hr) as (? & ? & _). done.
Qed.

Lemma forward_log_chained_witness :
  ∃ s, last (history_of (forward_process
                           [init (new_State loser_ops) loser_ops] loser_ops))
       = Some s ∧
       recoverable s ∧
       log_ok (disk (crash s)) (log (crash s)) ∧ paired (log (crash s)).
Proof.
  assert (H : forward_process [init (new_State loser_ops) loser_ops] loser_ops
              = Ok (history_of
                      (forward_process [init (new_State loser_ops) loser_ops]
                         loser_ops))) by (vm_compute; reflexivity).
  destruct (last (history_of
                    (forward_process [init (new_State loser_ops) loser_ops]
                       loser_ops))) as [s|] eqn:Hlast;
    [| vm_compute in Hlast; discriminate].
  exists s. split; [reflexivity |].
  apply (forward_log_chained loser_ops _ s H).
  by apply last_Some_elem_of.
Defined.

(** *** Analysis returns *)




Lemma analysis_commit_eq (state : State) (lsn : Z) (txn_id : string) :
  analysis_commit state lsn txn_id =
    Ok (set_txn_table
          (<[txn_id := TxnTableEntry.mk (Some COMMITTED) (Some lsn)]>
             (txn_table state)) state).
Proof.
  unfold analysis_commit, begin_txn, set_txn_status, set_last_lsn.
  destruct (txn_table state !! txn_id) as [e|] eqn:Htxn; simpl.
  - rewrite Htxn. simpl. rewrite lookup_insert_eq. simpl.
    unfold_state. by rewrite insert_insert_eq.
  - rewrite lookup_insert_eq. simpl. rewrite lookup_insert_eq. simpl.
    unfold_state. by rewrite !insert_insert_eq.
Qed.





(** *** Redo returns *)



(** *** Undo returns *)









(** *** The whole run *)




(** ** The remaining helpers of Redo and Analysis *)

(** X20. [min_rec_lsn] returns undefined exactly for an empty dirty page
    table; otherwise it returns the recLSN of one of the pages of the table,
    and no page of the table has a smaller one, in whichever order the keys
    of the table are visited. *)
Theorem min_rec_lsn_spec (state : State) :
  match min_rec_lsn state with
  | None => dirty_page_table state = ∅
  | Some m =>
      (∃ page_id d, dirty_page_table state !! page_id = Some d ∧
                    DirtyPageTableEntry.rec_lsn d = m) ∧
      ∀ page_id d, dirty_page_table state !! page_id = Some d →
                   m <= DirtyPageTableEntry.rec_lsn d
  end.
Proof.
  destruct (decide (dirty_page_table state = ∅)) as [Hempty | Hne].
  - by rewrite (min_rec_lsn_empty state Hempty).
  - destruct (min_rec_lsn_is_min state Hne) as (m & -> & Hin & Hmin). done.
Qed.

(** X21. Analysis of a Commit entry never fails, whether or not the
    transaction is in the table: it leaves the transaction committed with
    the LSN of the Commit as last LSN and changes nothing else.  Analysis of
    a Commit followed by the End of the same transaction leaves the state it
    started from with the transaction removed from the table, so a
    transaction whose Commit and End are in the scanned log is not a loser
    on their account. *)
Theorem analysis_commit_then_end (state : State) (lsn lsn' : Z)
  (txn_id : string) (prev prev' : option Z) :
  analysis_entry state (Log.Commit lsn txn_id prev) =
    Ok (set_txn_table
          (<[txn_id := TxnTableEntry.mk (Some COMMITTED) (Some lsn)]>
             (txn_table state)) state) ∧
  (s ← analysis_entry state (Log.Commit lsn txn_id prev);
   analysis_entry s (Log.End_ lsn' txn_id prev')) =
    Ok (set_txn_table (delete txn_id (txn_table state)) state).
Proof.
  simpl. rewrite analysis_commit_eq. split; [done |]. simpl.
  unfold analysis_end. f_equal. unfold_state. by rewrite delete_insert_eq.
Qed.
